(** * Schedule manager: free-time resolution and multi-party intersection

    A shallow embedding of [src/main.py] (the schedule-manager tool server)
    and the properties of its availability engine.

    Python integers are unbounded, so hours are modelled in [Z].  The
    module-level dictionary [SCHEDULES] is a finite map from names to lists
    of pairs; every tool is a function from the store before the call to the
    store after the call together with either a value or a raised
    exception. *)

From Stdlib Require Import Ascii.
From stdpp Require Import gmap strings list sorting pretty.

Local Open Scope Z_scope.

(** ** Data model *)

(** [Tuple[int, int]]: a (start, end) pair of hours. *)
Abbreviation slot := (Z * Z)%type.

(** [SCHEDULES: Dict[str, List[Tuple[int, int]]]]. *)
Abbreviation store := (gmap string (list slot)).

Definition WORK_START : Z := 9.
Definition WORK_END : Z := 18.

(** The exceptions the modelled statements can raise: indexing a list out
    of range, subscripting a dictionary at a missing key, and converting an
    integer of too many digits to a string. *)
Inductive exn : Type :=
  | IndexError
  | KeyError
  | ValueError.

Inductive result (A : Type) : Type :=
  | Ok (a : A)
  | Raise (e : exn).
Arguments Ok {A} a.
Arguments Raise {A} e.

(** A tool call: state passing over the store, with exceptions. *)
Definition tool (A : Type) : Type := store → store * result A.

Definition ret {A} (a : A) : tool A := λ st, (st, Ok a).
Definition bind {A B} (m : tool A) (k : A → tool B) : tool B :=
  λ st, match m st with
        | (st', Ok a) => k a st'
        | (st', Raise e) => (st', Raise e)
        end.

Notation "'let*' x ':=' m 'in' k" := (bind m (λ x, k))
  (at level 10, x name, m at level 100, k at level 200).
Notation "m ';;' k" := (bind m (λ _, k))
  (at level 100, k at level 200, right associativity).

(** ** Presentation *)

(** The text of [f"{s}:00–{e}:00"] once both integers have been converted;
    [pretty] prints a [Z] in decimal with a leading minus sign for negative
    numbers, as [str] does for a Python [int]. *)
Definition format_slot (x : slot) : string :=
  pretty x.1 +:+ ":00–" +:+ pretty x.2 +:+ ":00".

(** The interpreter converts an [int] to a decimal string only when the
    string has at most 4300 digits, the sign not counted (the default of
    [sys.int_max_str_digits]); beyond that the conversion raises
    [ValueError].  [printable_limit] below restates the bound on the
    magnitude: the absolute value is below [10 ^ 4300]. *)
Definition INT_MAX_STR_DIGITS : nat := 4300.

Definition printable (z : Z) : Prop :=
  (String.length (pretty (Z.abs z)) ≤ INT_MAX_STR_DIGITS)%nat.

Definition str_int (z : Z) : result string :=
  if bool_decide (printable z) then Ok (pretty z) else Raise ValueError.

(** The evaluation of [f"{s}:00–{e}:00"]: the two conversions, left to
    right, then the text. *)
Definition render_slot (x : slot) : result string :=
  match str_int x.1 with
  | Raise e => Raise e
  | Ok s =>
      match str_int x.2 with
      | Raise e => Raise e
      | Ok e => Ok (s +:+ ":00–" +:+ e +:+ ":00")
      end
  end.

(** [[f"{s}:00–{e}:00" for s, e in common]]: the elements are rendered in
    order and the first failing conversion aborts the comprehension. *)
Fixpoint render_all (common : list slot) : result (list string) :=
  match common with
  | [] => Ok []
  | x :: common' =>
      match render_slot x with
      | Raise e => Raise e
      | Ok s =>
          match render_all common' with
          | Raise e => Raise e
          | Ok l => Ok (s :: l)
          end
      end
  end.

(** ** Tool: add busy time *)

Definition add_busy_time (name : string) (start end_ : Z) : tool string :=
  λ st,
    (* if name not in SCHEDULES: SCHEDULES[name] = [] *)
    let st1 : store := match st !! name with
                       | None => <[name := []]> st
                       | Some _ => st
                       end in
    (* SCHEDULES[name].append((start, end)) *)
    match st1 !! name with
    | None => (st1, Raise KeyError)
    | Some l =>
        let st2 : store := <[name := l ++ [(start, end_)]]> st1 in
        (* return f"Added busy time for {name}: {start}:00–{end}:00" *)
        match render_slot (start, end_) with
        | Raise e => (st2, Raise e)
        | Ok s => (st2, Ok ("Added busy time for " +:+ name +:+ ": " +:+ s))
        end
    end.

(** ** Helper: get free slots *)

(** Python compares tuples lexicographically. *)
Definition tuple_le (x y : slot) : Prop :=
  x.1 < y.1 ∨ (x.1 = y.1 ∧ x.2 ≤ y.2).

Global Instance tuple_le_dec : RelDecision tuple_le.
Proof. intros x y. unfold tuple_le. apply _. Defined.

(** [busy.sort()]: the ascending sort of the list.  The order on pairs of
    integers is total and antisymmetric, so the sorted arrangement of a list
    is unique ([sort_unique] below) and the choice of algorithm is
    immaterial. *)
Definition sort (busy : list slot) : list slot := merge_sort tuple_le busy.

(** One iteration of [for start, end in busy], on the pair of locals
    [(free, current)]. *)
Definition scan_step (acc : list slot * Z) (b : slot) : list slot * Z :=
  let '(free, current) := acc in
  let '(start, end_) := b in
  let free := if bool_decide (start > current)
              then free ++ [(current, start)] else free in
  (free, Z.max current end_).

(** [get_free_slots busy] returns the contents of the argument list after
    the call (it is sorted in place) and the returned list. *)
Definition get_free_slots (busy : list slot) : list slot * list slot :=
  let busy := sort busy in
  let '(free, current) := fold_left scan_step busy ([], WORK_START) in
  let free := if bool_decide (current < WORK_END)
              then free ++ [(current, WORK_END)] else free in
  (busy, free).

(** ** Tool: find common free time *)

(** The body of [for member in members]: [SCHEDULES.get(member, [])] hands
    out the list stored in the dictionary itself when the key is present, so
    the in-place sort of [get_free_slots] is visible in the store; for a
    missing key a fresh empty list is used and no entry is created. *)
Definition resolve (member : string) : tool (list slot) :=
  λ st, match st !! member with
        | Some busy =>
            let '(busy', free) := get_free_slots busy in
            (<[member := busy']> st, Ok free)
        | None =>
            let '(_, free) := get_free_slots [] in
            (st, Ok free)
        end.

Fixpoint collect (members : list string) (all_free_slots : list (list slot))
  : tool (list (list slot)) :=
  match members with
  | [] => ret all_free_slots
  | member :: members' =>
      let* free := resolve member in
      collect members' (all_free_slots ++ [free])
  end.

(** The two nested loops computing [new_common] from [common] and [slots]. *)
Definition intersect_step (a b : slot) (new_common : list slot) : list slot :=
  let start := Z.max a.1 b.1 in
  let end_ := Z.min a.2 b.2 in
  if bool_decide (start < end_) then new_common ++ [(start, end_)]
  else new_common.

Definition intersect (common slots : list slot) : list slot :=
  fold_left
    (λ new_common a,
       fold_left (λ new_common b, intersect_step a b new_common)
                 slots new_common)
    common [].

(** [common = all_free_slots[0]] followed by the fold over
    [all_free_slots[1:]]. *)
Definition intersect_all (all_free_slots : list (list slot))
  : result (list slot) :=
  match all_free_slots !! 0%nat with
  | None => Raise IndexError
  | Some common => Ok (fold_left intersect (drop 1 all_free_slots) common)
  end.

(** Everything of [find_common_free_time] up to the final formatting: the
    value of the local [common] when the [return] is reached. *)
Definition common_free_slots (members : list string) : tool (list slot) :=
  let* all_free_slots := collect members [] in
  λ st, (st, intersect_all all_free_slots).

Definition find_common_free_time (members : list string)
  : tool (list string) :=
  let* common := common_free_slots members in
  λ st, (st, render_all common).

(** ** Prompt: message to group *)

Definition no_common_message : string :=
  "No common free time found for all members today.".

Definition meeting_message (members : list string) : tool string :=
  let* free_slots := find_common_free_time members in
  if bool_decide (free_slots = []) then ret no_common_message
  else
    let slots := String.concat ", " free_slots in
    ret ("All members (" +:+ String.concat ", " members
         +:+ ") are available at the following times: "
         +:+ slots +:+ ". Please confirm which slot works best.").

(** ** Definitions used in the statements *)

(** The scan of the resolver as a recursion on the (sorted) busy list:
    [scan_gaps] relates it to the loop above. *)
Fixpoint gaps (current : Z) (busy : list slot) : list slot :=
  match busy with
  | [] => if bool_decide (current < WORK_END) then [(current, WORK_END)] else []
  | (start, end_) :: busy' =>
      (if bool_decide (start > current) then [(current, start)] else [])
      ++ gaps (Z.max current end_) busy'
  end.

(** The contribution of one pair [(a, b)] to [new_common]. *)
Definition meet (a b : slot) : list slot :=
  intersect_step a b [].

(** A well-formed Interval of the data model. *)
Definition interval_wf (x : slot) : Prop := 0 ≤ x.1 ∧ x.1 < x.2 ∧ x.2 ≤ 24.

(** A busy interval clamped to the working day. *)
Definition clamped (x : slot) : Prop :=
  WORK_START ≤ x.1 ∧ x.1 < x.2 ∧ x.2 ≤ WORK_END.

(** An interval lying within the working day. *)
Definition within_working_day (x : slot) : Prop :=
  WORK_START ≤ x.1 ∧ x.2 ≤ WORK_END.

(** Consecutive intervals of a FreeList: the starts increase strictly and
    the earlier interval ends no later than the next one starts. *)
Definition precedes (x y : slot) : Prop := x.1 < y.1 ∧ x.2 ≤ y.1.

(** The FreeList invariant: sorted by start, strictly increasing,
    non-overlapping. *)
Definition free_list_inv (l : list slot) : Prop := Sorted precedes l.

(** The BusyList of a person: [SCHEDULES.get(member, [])]. *)
Definition busy_of (st : store) (member : string) : list slot :=
  default [] (st !! member).

(** The FreeList the resolver returns for a person. *)
Definition free_of (st : store) (member : string) : list slot :=
  (get_free_slots (busy_of st member)).2.

(** The effect of one [resolve] on the store: the entry of [member], when
    there is one, is left sorted. *)
Definition touch (member : string) (st : store) : store :=
  match st !! member with
  | Some busy => <[member := sort busy]> st
  | None => st
  end.

(** The hours covered by a list of half-open intervals, and the hours at
    which every one of [members] is free. *)
Definition covers (l : list slot) (t : Z) : Prop :=
  ∃ x, x ∈ l ∧ x.1 ≤ t ∧ t < x.2.

Definition common_free (st : store) (members : list string) (t : Z) : Prop :=
  ∀ member, member ∈ members → covers (free_of st member) t.

(** The hours at which some interval of a BusyList is in progress. *)
Definition busy_at (busy : list slot) (t : Z) : Prop :=
  ∃ b, b ∈ busy ∧ b.1 ≤ t ∧ t < b.2.

(** Every interval of [l] is non-empty and lies inside some interval of
    [slots]. *)
Definition refines (l slots : list slot) : Prop :=
  Forall (λ x : slot, x.1 < x.2 ∧ ∃ a, a ∈ slots ∧ a.1 ≤ x.1 ∧ x.2 ≤ a.2) l.

(** A string without the character [:]. *)
Fixpoint no_colon (s : string) : Prop :=
  match s with
  | EmptyString => True
  | String c s' => c ≠ ":"%char ∧ no_colon s'
  end.

(** The least magnitude that is not converted to a string. *)
Definition INT_STR_LIMIT : Z := 10 ^ Z.of_nat INT_MAX_STR_DIGITS.

(** The scenario of the spec: four registrations, then the query. *)
Definition scenario : tool (list string) :=
  add_busy_time "Alice" 10 11 ;;
  add_busy_time "Alice" 14 16 ;;
  add_busy_time "Bob" 9 10 ;;
  add_busy_time "Bob" 13 15 ;;
  find_common_free_time ["Alice"; "Bob"].

(** ** Sanity checks on concrete inputs *)

Example get_free_slots_alice :
  get_free_slots [(14, 16); (10, 11)]
  = ([(10, 11); (14, 16)], [(9, 10); (11, 14); (16, 18)]).
Proof. vm_compute. reflexivity. Qed.

Example format_slot_neg : format_slot (-3, 120) = "-3:00–120:00".
Proof. vm_compute. reflexivity. Qed.

Example intersect_small :
  intersect [(9, 10); (11, 14); (16, 18)] [(10, 13); (15, 18)]
  = [(11, 13); (16, 18)].
Proof. vm_compute. reflexivity. Qed.

(** * The sort *)

Global Instance tuple_le_total : Total tuple_le.
Proof. intros [a b] [c d]. unfold tuple_le. simpl. lia. Qed.

Global Instance tuple_le_trans : Transitive tuple_le.
Proof. intros [a b] [c d] [e f]. unfold tuple_le. simpl. lia. Qed.

Global Instance tuple_le_antisymm : AntiSymm (=) tuple_le.
Proof.
  intros [a b] [c d]. unfold tuple_le. simpl. intros H1 H2.
  f_equal; lia.
Qed.

Lemma sort_sorted busy : Sorted tuple_le (sort busy).
Proof. apply Sorted_merge_sort, _. Qed.

Lemma sort_perm busy : sort busy ≡ₚ busy.
Proof. apply merge_sort_Permutation. Qed.

(** Any ascending arrangement of the elements of [busy] is [sort busy]. *)
Lemma sort_unique busy l :
  Sorted tuple_le l → l ≡ₚ busy → sort busy = l.
Proof.
  intros Hl Hp. apply (Sorted_unique tuple_le); auto using sort_sorted.
  by rewrite sort_perm.
Qed.

Lemma sort_idemp busy : sort (sort busy) = sort busy.
Proof. apply sort_unique; auto using sort_sorted. Qed.

Lemma sort_nil : sort [] = [].
Proof. reflexivity. Qed.

(** * The scan of the resolver *)

Lemma scan_gaps busy : ∀ free current,
  (let '(free', current') := fold_left scan_step busy (free, current) in
   if bool_decide (current' < WORK_END)
   then free' ++ [(current', WORK_END)] else free')
  = free ++ gaps current busy.
Proof.
  induction busy as [|[s e] busy IH]; intros free current; simpl.
  - case_bool_decide; by rewrite ?app_nil_r.
  - rewrite IH. case_bool_decide; by rewrite <- ?app_assoc.
Qed.

Lemma get_free_slots_gaps busy :
  get_free_slots busy = (sort busy, gaps WORK_START (sort busy)).
Proof.
  unfold get_free_slots.
  pose proof (scan_gaps (sort busy) [] WORK_START) as H.
  destruct (fold_left scan_step (sort busy) ([], WORK_START)) as [free cur].
  by rewrite H.
Qed.

(** Every emitted interval is non-empty and starts at or after the cursor. *)
Lemma gaps_nonempty busy : ∀ current,
  Forall (λ x : slot, current ≤ x.1 ∧ x.1 < x.2) (gaps current busy).
Proof.
  induction busy as [|[s e] busy IH]; intros current; simpl.
  - case_bool_decide; repeat constructor; simpl; lia.
  - apply Forall_app. split.
    + case_bool_decide; repeat constructor; simpl; lia.
    + eapply Forall_impl; [apply IH|]. simpl. lia.
Qed.

(** Upper bound on the emitted intervals, given a bound on busy starts. *)
Lemma gaps_upper (hi : Z) busy : ∀ current,
  WORK_END ≤ hi →
  Forall (λ b : slot, b.1 ≤ hi) busy →
  Forall (λ x : slot, x.2 ≤ hi) (gaps current busy).
Proof.
  induction busy as [|[s e] busy IH]; intros current Hhi Hb; simpl.
  - case_bool_decide; repeat constructor; simpl; lia.
  - inversion Hb as [|? ? Hs Hb']; subst. simpl in Hs.
    apply Forall_app. split.
    + case_bool_decide; repeat constructor; simpl; lia.
    + by apply IH.
Qed.

(** The resolver emits its intervals in increasing, non-overlapping order
    as soon as every busy interval has [start < end]; the order of the busy
    list plays no role here. *)
Lemma gaps_sorted busy : ∀ current,
  Forall (λ b : slot, b.1 < b.2) busy →
  StronglySorted precedes (gaps current busy).
Proof.
  induction busy as [|[s e] busy IH]; intros current Hb; simpl.
  - case_bool_decide; repeat constructor.
  - inversion Hb as [|? ? Hs Hb']; subst. simpl in Hs.
    case_bool_decide; simpl; [|by apply IH].
    constructor; [by apply IH|].
    eapply Forall_impl; [apply (gaps_nonempty busy (Z.max current e))|].
    unfold precedes. simpl. lia.
Qed.

Global Instance precedes_trans : Transitive precedes.
Proof. intros [a b] [c d] [e f]. unfold precedes. simpl. lia. Qed.

Lemma free_list_inv_strong l : free_list_inv l ↔ StronglySorted precedes l.
Proof.
  split; [apply Sorted_StronglySorted, _ | apply StronglySorted_Sorted].
Qed.

Lemma Forall_sort (P : slot → Prop) busy :
  Forall P busy → Forall P (sort busy).
Proof. intros H. by rewrite sort_perm. Qed.

(** * The resolver: bounds and invariant *)

(** C5. For every BusyList, malformed or not, every interval of the
    resolver's output has [start < end]; and when every busy interval is
    clamped to the working day ([WORK_START <= start < end <= WORK_END]),
    every output interval lies within [[WORK_START, WORK_END]]. *)
Theorem resolver_output_bounds (busy : list slot) :
  Forall (λ x : slot, x.1 < x.2) (get_free_slots busy).2
  ∧ (Forall clamped busy →
     Forall within_working_day (get_free_slots busy).2).
Proof.
  rewrite get_free_slots_gaps. simpl. split.
  - eapply Forall_impl; [apply gaps_nonempty|]. simpl. lia.
  - intros Hc.
    pose proof (gaps_nonempty (sort busy) WORK_START) as Hlo.
    assert (Hhi : Forall (λ x : slot, x.2 ≤ WORK_END)
                    (gaps WORK_START (sort busy))).
    { apply gaps_upper; [lia|]. apply Forall_sort.
      eapply Forall_impl; [exact Hc|]. unfold clamped. lia. }
    rewrite Forall_forall in Hlo, Hhi. apply Forall_forall.
    intros x Hx. specialize (Hlo x Hx). specialize (Hhi x Hx).
    unfold within_working_day. lia.
Qed.

Lemma resolver_output_bounds_witness :
  Forall clamped [(14, 16); (10, 11)]
  ∧ Forall within_working_day (get_free_slots [(14, 16); (10, 11)]).2.
Proof.
  assert (H : Forall clamped [(14, 16); (10, 11)]).
  { repeat constructor; unfold WORK_START, WORK_END; simpl; lia. }
  split; [exact H|].
  exact (proj2 (resolver_output_bounds [(14, 16); (10, 11)]) H).
Defined.

(** C6, as the code has it.  For every BusyList of well-formed Intervals
    ([0 <= start < end <= 24]) the resolver's output is sorted by start,
    strictly increasing and non-overlapping, and every interval of it
    satisfies [WORK_START <= start < end <= 24]; it lies within the working
    day when, in addition, no busy interval starts after [WORK_END]. *)
Theorem resolver_free_list_inv (busy : list slot) :
  Forall interval_wf busy →
  free_list_inv (get_free_slots busy).2
  ∧ Forall (λ x : slot, WORK_START ≤ x.1 ∧ x.1 < x.2 ∧ x.2 ≤ 24)
      (get_free_slots busy).2
  ∧ (Forall (λ b : slot, b.1 ≤ WORK_END) busy →
     Forall within_working_day (get_free_slots busy).2).
Proof.
  intros Hwf. rewrite get_free_slots_gaps. simpl.
  pose proof (gaps_nonempty (sort busy) WORK_START) as Hlo.
  split; [|split].
  - apply free_list_inv_strong, gaps_sorted, Forall_sort.
    eapply Forall_impl; [exact Hwf|]. unfold interval_wf. lia.
  - assert (Hhi : Forall (λ x : slot, x.2 ≤ 24)
                    (gaps WORK_START (sort busy))).
    { apply gaps_upper; [unfold WORK_END; lia|]. apply Forall_sort.
      eapply Forall_impl; [exact Hwf|]. unfold interval_wf. lia. }
    rewrite Forall_forall in Hlo, Hhi. apply Forall_forall.
    intros x Hx. specialize (Hlo x Hx). specialize (Hhi x Hx). lia.
  - intros Hs.
    assert (Hhi : Forall (λ x : slot, x.2 ≤ WORK_END)
                    (gaps WORK_START (sort busy))).
    { apply gaps_upper; [lia|]. by apply Forall_sort. }
    rewrite Forall_forall in Hlo, Hhi. apply Forall_forall.
    intros x Hx. specialize (Hlo x Hx). specialize (Hhi x Hx).
    unfold within_working_day. lia.
Qed.

Lemma resolver_free_list_inv_witness :
  Forall interval_wf [(20, 24); (10, 11)]
  ∧ free_list_inv (get_free_slots [(20, 24); (10, 11)]).2.
Proof.
  assert (H : Forall interval_wf [(20, 24); (10, 11)]).
  { repeat constructor; simpl; lia. }
  split; [exact H|].
  exact (proj1 (resolver_free_list_inv [(20, 24); (10, 11)] H)).
Defined.

(** C6 as stated fails: a well-formed busy interval after the end of the
    working day makes the resolver emit a free interval that runs past
    [WORK_END]. *)
Lemma resolver_free_list_inv_counterexample :
  Forall interval_wf [(20, 24)]
  ∧ (get_free_slots [(20, 24)]).2 = [(9, 20)]
  ∧ ¬ Forall within_working_day (get_free_slots [(20, 24)]).2.
Proof.
  split; [repeat constructor; simpl; lia|].
  split; [vm_compute; reflexivity|].
  intros H. apply Forall_inv in H.
  unfold within_working_day, WORK_END in H. simpl in H. lia.
Qed.

(** * The pairwise intersection *)

Lemma inner_loop_bind a slots : ∀ new_common,
  fold_left (λ new_common b, intersect_step a b new_common) slots new_common
  = new_common ++ (slots ≫= meet a).
Proof.
  induction slots as [|b slots IH]; intros new_common; simpl.
  - by rewrite app_nil_r.
  - rewrite IH. unfold meet, intersect_step.
    case_bool_decide; simpl; by rewrite <- ?app_assoc.
Qed.

Lemma outer_loop_bind slots common : ∀ new_common,
  fold_left
    (λ new_common a,
       fold_left (λ new_common b, intersect_step a b new_common)
                 slots new_common)
    common new_common
  = new_common ++ (common ≫= λ a, slots ≫= meet a).
Proof.
  induction common as [|a common IH]; intros new_common; simpl.
  - by rewrite app_nil_r.
  - rewrite IH, inner_loop_bind. by rewrite <- app_assoc.
Qed.

Lemma intersect_bind common slots :
  intersect common slots = common ≫= λ a, slots ≫= meet a.
Proof. unfold intersect. by rewrite outer_loop_bind. Qed.

Lemma elem_of_meet x a b :
  x ∈ meet a b ↔
  x.1 = Z.max a.1 b.1 ∧ x.2 = Z.min a.2 b.2 ∧ x.1 < x.2.
Proof.
  unfold meet, intersect_step. destruct x as [s e].
  case_bool_decide; simpl.
  - rewrite list_elem_of_singleton. split.
    + intros [= -> ->]. lia.
    + intros (-> & -> & _). reflexivity.
  - rewrite elem_of_nil. lia.
Qed.

Lemma elem_of_intersect x common slots :
  x ∈ intersect common slots ↔
  ∃ a b, a ∈ common ∧ b ∈ slots ∧
         x.1 = Z.max a.1 b.1 ∧ x.2 = Z.min a.2 b.2 ∧ x.1 < x.2.
Proof.
  rewrite intersect_bind, list_elem_of_bind. split.
  - intros (a & Hx & Ha). apply list_elem_of_bind in Hx as (b & Hx & Hb).
    apply elem_of_meet in Hx. eauto 10.
  - intros (a & b & Ha & Hb & Hx). exists a. split; [|done].
    apply list_elem_of_bind. exists b. split; [|done].
    by apply elem_of_meet.
Qed.

Lemma intersect_nil_l slots : intersect [] slots = [].
Proof. reflexivity. Qed.

Lemma intersect_nil_r common : intersect common [] = [].
Proof.
  rewrite intersect_bind. induction common as [|a common IH]; [done|].
  by rewrite bind_cons, IH.
Qed.

(** Folding any further free lists into an empty [common] leaves it empty. *)
Lemma fold_intersect_nil rest : fold_left intersect rest [] = [].
Proof. induction rest as [|slots rest IH]; [done|]. simpl. exact IH. Qed.

(** A participant without free time empties the result, wherever they
    stand in the sequence. *)
Lemma fold_intersect_empty rest : ∀ common,
  common = [] ∨ [] ∈ rest → fold_left intersect rest common = [].
Proof.
  induction rest as [|slots rest IH]; intros common [Hc|Hin]; simpl.
  - done.
  - by apply elem_of_nil in Hin.
  - subst. apply fold_intersect_nil.
  - apply elem_of_cons in Hin as [<-|Hin].
    + rewrite intersect_nil_r. apply fold_intersect_nil.
    + apply IH. by right.
Qed.

Lemma StronglySorted_bind {A B} (R : relation A) (S : relation B)
    (f : A → list B) (l : list A) :
  StronglySorted R l →
  (∀ a, a ∈ l → StronglySorted S (f a)) →
  (∀ a a' x x', a ∈ l → a' ∈ l → R a a' → x ∈ f a → x' ∈ f a' → S x x') →
  StronglySorted S (l ≫= f).
Proof.
  induction 1 as [|a l Hl IH Ha]; intros Hf Hcross.
  - constructor.
  - rewrite bind_cons, StronglySorted_app. split_and!.
    + intros x x' Hx Hx'. apply list_elem_of_bind in Hx' as (a' & Hx' & Ha').
      rewrite Forall_forall in Ha.
      apply (Hcross a a'); [by left|by right|by apply Ha|done..].
    + apply Hf. by left.
    + apply IH.
      * intros a' Ha'. apply Hf. by right.
      * intros a1 a2 x x' H1 H2. apply Hcross; by right.
Qed.

Lemma StronglySorted_meet a b : StronglySorted precedes (meet a b).
Proof.
  unfold meet, intersect_step. case_bool_decide; repeat constructor.
Qed.

(** The intersection of two FreeLists is again a FreeList. *)
Lemma intersect_sorted common slots :
  StronglySorted precedes common → StronglySorted precedes slots →
  StronglySorted precedes (intersect common slots).
Proof.
  intros Hc Hs. rewrite intersect_bind.
  apply (StronglySorted_bind precedes); [done|..].
  - intros a _. apply (StronglySorted_bind precedes); [done|..].
    + intros b _. apply StronglySorted_meet.
    + intros b b' x x' _ _ Hbb Hx Hx'.
      apply elem_of_meet in Hx, Hx'. unfold precedes in *. lia.
  - intros a a' x x' _ _ Haa Hx Hx'.
    apply list_elem_of_bind in Hx as (b & Hx & _).
    apply list_elem_of_bind in Hx' as (b' & Hx' & _).
    apply elem_of_meet in Hx, Hx'. unfold precedes in *. lia.
Qed.

Lemma precedes_NoDup l : StronglySorted precedes l → NoDup l.
Proof.
  induction 1 as [|x l Hl IH Hx]; constructor; [|done].
  intros Hin. rewrite Forall_forall in Hx. specialize (Hx x Hin).
  unfold precedes in Hx. lia.
Qed.

(** A FreeList is determined by the set of its intervals. *)
Lemma free_list_ext l1 l2 :
  StronglySorted precedes l1 → StronglySorted precedes l2 →
  (∀ x, x ∈ l1 ↔ x ∈ l2) → l1 = l2.
Proof.
  intros H1 H2 Heq. apply (StronglySorted_unique_strong precedes); try done.
  - intros x1 x2 _ _. unfold precedes. lia.
  - apply NoDup_Permutation; auto using precedes_NoDup.
Qed.

Lemma elem_of_intersect3 x l1 l2 l3 :
  x ∈ intersect (intersect l1 l2) l3 ↔
  ∃ a b c, a ∈ l1 ∧ b ∈ l2 ∧ c ∈ l3 ∧
           x.1 = Z.max (Z.max a.1 b.1) c.1 ∧
           x.2 = Z.min (Z.min a.2 b.2) c.2 ∧ x.1 < x.2.
Proof.
  rewrite elem_of_intersect. split.
  - intros (y & c & Hy & Hc & Hx).
    apply elem_of_intersect in Hy as (a & b & Ha & Hb & Hy).
    exists a, b, c. repeat split; try done; lia.
  - intros (a & b & c & Ha & Hb & Hc & Hx).
    exists (Z.max a.1 b.1, Z.min a.2 b.2), c. simpl.
    split; [|split; [done|lia]].
    apply elem_of_intersect. exists a, b. simpl.
    repeat split; try done; lia.
Qed.

(** C7. The fold of the intersector is order-independent on FreeLists:
    folding [[A; B; C]] left to right gives the same sequence as folding
    [[C; B; A]], whenever each of the three lists is sorted by start,
    strictly increasing and non-overlapping. *)
Theorem intersect_all_order_independent (A B C : list slot) :
  free_list_inv A → free_list_inv B → free_list_inv C →
  intersect_all [A; B; C] = intersect_all [C; B; A].
Proof.
  rewrite !free_list_inv_strong. intros HA HB HC.
  unfold intersect_all. simpl. f_equal.
  apply free_list_ext; auto using intersect_sorted.
  intros x. rewrite !elem_of_intersect3. split.
  - intros (a & b & c & Ha & Hb & Hc & Hx).
    exists c, b, a. repeat split; try done; lia.
  - intros (c & b & a & Hc & Hb & Ha & Hx).
    exists a, b, c. repeat split; try done; lia.
Qed.

Lemma intersect_all_order_independent_witness :
  let A := [(9, 10); (11, 14); (16, 18)] in
  let B := [(10, 13); (15, 18)] in
  let C := [(9, 12); (12, 17)] in
  intersect_all [A; B; C] = intersect_all [C; B; A].
Proof.
  intros A B C.
  apply (intersect_all_order_independent A B C);
    unfold free_list_inv, precedes;
    repeat (constructor; simpl; try lia).
Defined.

(** * The store *)

Lemma resolve_spec member st :
  resolve member st = (touch member st, Ok (free_of st member)).
Proof.
  unfold resolve, touch, free_of, busy_of.
  destruct (st !! member) as [busy|]; by rewrite !get_free_slots_gaps.
Qed.

Lemma lookup_touch member st name :
  touch member st !! name
  = if decide (name = member) then sort <$> st !! name else st !! name.
Proof.
  unfold touch. case_decide as Hn.
  - subst. destruct (st !! member) as [busy|] eqn:E; simpl.
    + by rewrite lookup_insert_eq.
    + by rewrite E.
  - destruct (st !! member) as [busy|]; [|done].
    by rewrite lookup_insert_ne.
Qed.

(** Sorting an entry does not change what the resolver returns for it. *)
Lemma free_of_touch member st name :
  free_of (touch member st) name = free_of st name.
Proof.
  unfold free_of, busy_of. rewrite lookup_touch. case_decide; [|done].
  destruct (st !! name) as [busy|]; simpl; [|done].
  by rewrite !get_free_slots_gaps, sort_idemp.
Qed.

Lemma collect_spec members : ∀ all_free_slots st,
  collect members all_free_slots st
  = (fold_left (λ st member, touch member st) members st,
     Ok (all_free_slots ++ (free_of st <$> members))).
Proof.
  induction members as [|member members IH]; intros acc st; simpl.
  - unfold ret. by rewrite app_nil_r.
  - unfold bind. rewrite resolve_spec, IH, <- app_assoc. simpl.
    do 4 f_equal. apply list_fmap_ext. intros _ name _.
    apply free_of_touch.
Qed.

Lemma lookup_touch_all members : ∀ st name,
  fold_left (λ st member, touch member st) members st !! name
  = if decide (name ∈ members) then sort <$> st !! name else st !! name.
Proof.
  induction members as [|member members IH]; intros st name.
  - rewrite decide_False by apply not_elem_of_nil. done.
  - cbn [fold_left]. rewrite IH, lookup_touch.
    destruct (decide (name = member)) as [->|Hne],
             (decide (_ ∈ members)) as [Hin|Hnin],
             (decide (_ ∈ member :: members)) as [Hc|Hc];
      rewrite ?elem_of_cons in Hc; try tauto.
    destruct (st !! member) as [busy|]; simpl; [|done].
    by rewrite sort_idemp.
Qed.

Lemma common_free_slots_spec members st :
  common_free_slots members st
  = (fold_left (λ st member, touch member st) members st,
     intersect_all (free_of st <$> members)).
Proof. unfold common_free_slots, bind. by rewrite collect_spec. Qed.

Lemma find_common_free_time_spec members st :
  find_common_free_time members st
  = (fold_left (λ st member, touch member st) members st,
     match intersect_all (free_of st <$> members) with
     | Ok common => render_all common
     | Raise e => Raise e
     end).
Proof.
  unfold find_common_free_time, bind. rewrite common_free_slots_spec.
  by destruct (intersect_all _).
Qed.

(** * Rendering and the conversion limit *)

(** The number of digits [pretty] prints, against the magnitude. *)
Lemma pretty_N_go_length_ge x : ∀ s,
  (String.length s ≤ String.length (pretty_N_go x s))%nat.
Proof.
  induction (N.lt_wf_0 x) as [x _ IH]; intros s.
  assert (x = 0 ∨ 0 < x)%N as [->|Hx] by lia.
  - by rewrite pretty_N_go_0.
  - rewrite pretty_N_go_step by done.
    etrans; [|apply IH; by apply N.div_lt]. simpl. lia.
Qed.

Lemma pretty_N_go_length_le (k : nat) : ∀ x s,
  (x < 10 ^ N.of_nat k)%N →
  (String.length (pretty_N_go x s) ≤ String.length s + k)%nat.
Proof.
  induction k as [|k IH]; intros x s Hx.
  - assert (x = 0%N) as -> by (simpl in Hx; lia).
    rewrite pretty_N_go_0. lia.
  - assert (x = 0 ∨ 0 < x)%N as [->|Hpos] by lia.
    { rewrite pretty_N_go_0. lia. }
    rewrite pretty_N_go_step by done.
    rewrite Nat2N.inj_succ, N.pow_succ_r' in Hx.
    etrans; [apply IH|simpl; lia].
    by apply N.Div0.div_lt_upper_bound.
Qed.

Lemma pretty_N_go_length_gt (k : nat) : ∀ x s,
  (10 ^ N.of_nat k ≤ x)%N →
  (String.length s + k < String.length (pretty_N_go x s))%nat.
Proof.
  induction k as [|k IH]; intros x s Hx.
  - assert (0 < x)%N as Hpos by (simpl in Hx; lia).
    rewrite pretty_N_go_step by done.
    eapply Nat.lt_le_trans; [|apply pretty_N_go_length_ge]. simpl. lia.
  - rewrite Nat2N.inj_succ, N.pow_succ_r' in Hx.
    assert (0 < 10 ^ N.of_nat k)%N as Hp by (apply N.neq_0_lt_0, N.pow_nonzero; lia).
    assert (0 < x)%N as Hpos by lia.
    rewrite pretty_N_go_step by done.
    eapply Nat.le_lt_trans; [|apply IH].
    + simpl. lia.
    + apply N.div_le_lower_bound; [lia|done].
Qed.

Lemma pretty_N_length (k : nat) (x : N) :
  (0 < k)%nat →
  (x < 10 ^ N.of_nat k)%N ↔ (String.length (pretty x) ≤ k)%nat.
Proof.
  intros Hk. unfold pretty, pretty_N. case_decide as Hx.
  - subst. simpl. split; [lia|]. intros _.
    apply N.neq_0_lt_0, N.pow_nonzero. lia.
  - split.
    + intros Hlt. apply (pretty_N_go_length_le k x "" Hlt).
    + intros Hlen. destruct (decide (x < 10 ^ N.of_nat k)%N) as [|Hge]; [done|].
      pose proof (pretty_N_go_length_gt k x "" ltac:(lia)) as H.
      simpl in H. lia.
Qed.

Lemma pretty_Z_abs_length (k : nat) (z : Z) :
  (0 < k)%nat →
  Z.abs z < 10 ^ Z.of_nat k ↔ (String.length (pretty (Z.abs z)) ≤ k)%nat.
Proof.
  intros Hk.
  assert (HN : ∀ p, Z.pos p < 10 ^ Z.of_nat k
                    ↔ (String.length (pretty (N.pos p)) ≤ k)%nat).
  { intros p. rewrite <- (pretty_N_length k (N.pos p) Hk).
    rewrite N2Z.inj_lt, N2Z.inj_pow, nat_N_Z. done. }
  destruct z as [|p|p]; cbn [Z.abs].
  - split.
    + intros _. change (pretty 0) with "0". simpl. lia.
    + intros _. apply Z.pow_pos_nonneg; lia.
  - apply HN.
  - apply HN.
Qed.

(** The bound of [str_int] on the printed digits is a bound on the
    magnitude: an integer is converted exactly when its absolute value is
    below [10 ^ 4300]. *)
Lemma printable_limit (z : Z) : printable z ↔ Z.abs z < INT_STR_LIMIT.
Proof.
  unfold printable, INT_STR_LIMIT. symmetry. apply pretty_Z_abs_length.
  unfold INT_MAX_STR_DIGITS. lia.
Qed.


Lemma not_printable_limit : ¬ printable (10 ^ 4300).
Proof.
  rewrite printable_limit. change (10 ^ 4300) with INT_STR_LIMIT.
  assert (0 ≤ INT_STR_LIMIT) by (apply Z.pow_nonneg; lia). lia.
Qed.

Lemma str_int_ok z : printable z → str_int z = Ok (pretty z).
Proof. intros Hz. unfold str_int. by rewrite bool_decide_eq_true_2. Qed.

Lemma str_int_raise z : ¬ printable z → str_int z = Raise ValueError.
Proof. intros Hz. unfold str_int. by rewrite bool_decide_eq_false_2. Qed.

Lemma render_slot_ok x :
  printable x.1 → printable x.2 → render_slot x = Ok (format_slot x).
Proof.
  intros H1 H2. unfold render_slot. by rewrite !str_int_ok.
Qed.

Lemma render_slot_raise x :
  ¬ (printable x.1 ∧ printable x.2) → render_slot x = Raise ValueError.
Proof.
  intros H. unfold render_slot.
  destruct (decide (printable x.1)) as [H1|H1].
  - rewrite (str_int_ok _ H1), str_int_raise; [done|tauto].
  - by rewrite str_int_raise.
Qed.

Lemma render_all_ok common :
  Forall (λ x : slot, printable x.1 ∧ printable x.2) common →
  render_all common = Ok (format_slot <$> common).
Proof.
  induction 1 as [|x common [H1 H2] Hc IH]; [done|].
  simpl. by rewrite render_slot_ok, IH.
Qed.

Lemma render_all_raise common :
  ¬ Forall (λ x : slot, printable x.1 ∧ printable x.2) common →
  render_all common = Raise ValueError.
Proof.
  induction common as [|x common IH]; intros H.
  - destruct H. constructor.
  - simpl. destruct (decide (printable x.1 ∧ printable x.2)) as [[H1 H2]|Hx].
    + rewrite render_slot_ok by done. rewrite IH; [done|].
      intros Hc. apply H. by constructor.
    + by rewrite render_slot_raise.
Qed.

(** The comprehension either yields the texts of all intervals or raises
    the conversion error; it raises nothing else. *)
Lemma render_all_cases common :
  render_all common = Ok (format_slot <$> common)
  ∨ render_all common = Raise ValueError.
Proof.
  destruct (decide (Forall (λ x : slot, printable x.1 ∧ printable x.2)
                      common)) as [H|H].
  - left. by apply render_all_ok.
  - right. by apply render_all_raise.
Qed.

(** A stored hour that is not converted to a string: the intersection is
    computed, and the rendering of the answer raises. *)
Lemma find_common_free_time_long_hour (hour : Z) :
  WORK_END ≤ hour → ¬ printable hour →
  (common_free_slots ["X"] {[ "X" := [(hour, hour + 1)] ]}).2
  = Ok [(WORK_START, hour)]
  ∧ (find_common_free_time ["X"] {[ "X" := [(hour, hour + 1)] ]}).2
    = Raise ValueError.
Proof.
  intros Hh Hp.
  assert (Hfree : free_of {[ "X" := [(hour, hour + 1)] ]} "X"
                  = [(WORK_START, hour)]).
  { unfold free_of, busy_of. rewrite lookup_singleton_eq.
    rewrite get_free_slots_gaps.
    change (gaps WORK_START [(hour, hour + 1)] = [(WORK_START, hour)]).
    cbn [gaps]. unfold WORK_START, WORK_END in *.
    rewrite bool_decide_eq_true_2 by lia.
    by rewrite bool_decide_eq_false_2 by lia. }
  rewrite find_common_free_time_spec, common_free_slots_spec.
  cbn [snd fmap list_fmap]. rewrite Hfree. unfold intersect_all.
  cbn [lookup list_lookup drop fold_left]. split; [done|].
  apply render_all_raise. intros H. apply Forall_inv in H as [_ H].
  by apply Hp.
Qed.

(** The same with the hour [10 ^ 4300], of 4301 digits. *)
Example find_common_free_time_long_integer :
  (common_free_slots ["X"] {[ "X" := [(10 ^ 4300, 10 ^ 4300 + 1)] ]}).2
  = Ok [(WORK_START, 10 ^ 4300)]
  ∧ (find_common_free_time ["X"]
       {[ "X" := [(10 ^ 4300, 10 ^ 4300 + 1)] ]}).2
    = Raise ValueError.
Proof.
  apply (find_common_free_time_long_hour (10 ^ 4300)).
  - etrans; [|apply (Z.pow_le_mono_r 10 2 4300); lia].
    unfold WORK_END. lia.
  - apply not_printable_limit.
Qed.

(** * Scenarios *)

(** C1, as the code has it.  From the empty store, after the busy times
    (10, 11) and (14, 16) of Alice and (9, 10) and (13, 15) of Bob have been
    added, the common free time of Alice and Bob is exactly 11:00–13:00 and
    16:00–18:00: Alice is busy from 10 to 11, so the first common interval
    starts at 11. *)
Theorem scenario_alice_bob :
  (scenario ∅).2 = Ok ["11:00–13:00"; "16:00–18:00"].
Proof. vm_compute. reflexivity. Qed.

(** The free lists behind the scenario: Alice is free 9–10, 11–14 and
    16–18, Bob 10–13 and 15–18; the pairs that overlap are (11, 14) with
    (10, 13) and (16, 18) with (15, 18). *)
Example scenario_free_lists :
  (get_free_slots [(10, 11); (14, 16)]).2 = [(9, 10); (11, 14); (16, 18)]
  ∧ (get_free_slots [(9, 10); (13, 15)]).2 = [(10, 13); (15, 18)]
  ∧ intersect [(9, 10); (11, 14); (16, 18)] [(10, 13); (15, 18)]
    = [(11, 13); (16, 18)].
Proof. repeat split; vm_compute; reflexivity. Qed.

(** C1 as stated fails: the call does not return 10:00–13:00 and
    16:00–18:00. *)
Lemma scenario_alice_bob_counterexample :
  (scenario ∅).2 ≠ Ok ["10:00–13:00"; "16:00–18:00"].
Proof. vm_compute. discriminate. Qed.

(** C8. An empty BusyList resolves to the single full-working-day
    interval, and the common free time of one person without an entry in
    the store is exactly 9:00–18:00 (the store is left as it was). *)
Theorem unknown_person_full_day (name : string) (st : store) :
  st !! name = None →
  (get_free_slots []).2 = [(WORK_START, WORK_END)]
  ∧ free_of st name = [(WORK_START, WORK_END)]
  ∧ find_common_free_time [name] st = (st, Ok ["9:00–18:00"]).
Proof.
  intros Hnone.
  assert (Hfree : free_of st name = [(WORK_START, WORK_END)]).
  { unfold free_of, busy_of. by rewrite Hnone. }
  split; [reflexivity|]. split; [exact Hfree|].
  rewrite find_common_free_time_spec. simpl.
  unfold touch. rewrite Hnone, Hfree. reflexivity.
Qed.

Lemma unknown_person_full_day_witness :
  find_common_free_time ["NewPerson"] {[ "Alice" := [(10, 11)] ]}
  = ({[ "Alice" := [(10, 11)] ]}, Ok ["9:00–18:00"]).
Proof.
  apply (unknown_person_full_day "NewPerson" {[ "Alice" := [(10, 11)] ]}).
  vm_compute. reflexivity.
Defined.

(** C4. For the empty members sequence the loop collects nothing, element
    zero of the collected sequence does not exist, and the call raises the
    index error with the store unchanged; no guard precedes the access.
    For a non-empty members sequence the access succeeds: the intersection
    is computed, and the call does not raise the index error. *)
Theorem find_common_free_time_no_members (st : store) :
  collect [] [] st = (st, Ok [])
  ∧ intersect_all [] = Raise IndexError
  ∧ find_common_free_time [] st = (st, Raise IndexError)
  ∧ ∀ member members,
      (∃ common, (common_free_slots (member :: members) st).2 = Ok common)
      ∧ (find_common_free_time (member :: members) st).2 ≠ Raise IndexError.
Proof.
  repeat split.
  - rewrite common_free_slots_spec. simpl. eauto.
  - rewrite find_common_free_time_spec. unfold intersect_all. simpl.
    match goal with
    | |- context [render_all ?l] =>
        by destruct (render_all_cases l) as [-> | ->]
    end.
Qed.

(** * Empty intersections *)

(** The intersection covers exactly the hours covered by both lists. *)
Lemma covers_intersect common slots t :
  covers (intersect common slots) t ↔ covers common t ∧ covers slots t.
Proof.
  unfold covers. split.
  - intros (x & Hx & Ht). apply elem_of_intersect in Hx as (a & b & Ha & Hb & Hx).
    split; [exists a|exists b]; split; try done; lia.
  - intros [(a & Ha & Hta) (b & Hb & Htb)].
    exists (Z.max a.1 b.1, Z.min a.2 b.2). simpl. split; [|lia].
    apply elem_of_intersect. exists a, b. simpl. repeat split; try done; lia.
Qed.

Lemma covers_fold_intersect rest t : ∀ common,
  covers (fold_left intersect rest common) t
  ↔ covers common t ∧ Forall (λ slots, covers slots t) rest.
Proof.
  induction rest as [|slots rest IH]; intros common; simpl.
  - rewrite Forall_nil. tauto.
  - rewrite IH, covers_intersect, Forall_cons. tauto.
Qed.

Lemma intersect_nonempty common slots :
  Forall (λ x : slot, x.1 < x.2) (intersect common slots).
Proof.
  apply Forall_forall. intros x Hx.
  apply elem_of_intersect in Hx as (a & b & _ & _ & Hx). lia.
Qed.

Lemma fold_intersect_nonempty rest : ∀ common,
  Forall (λ x : slot, x.1 < x.2) common →
  Forall (λ x : slot, x.1 < x.2) (fold_left intersect rest common).
Proof.
  induction rest as [|slots rest IH]; intros common Hc; simpl; [done|].
  apply IH, intersect_nonempty.
Qed.

Lemma free_of_nonempty st member :
  Forall (λ x : slot, x.1 < x.2) (free_of st member).
Proof.
  unfold free_of. rewrite get_free_slots_gaps. simpl.
  eapply Forall_impl; [apply gaps_nonempty|]. simpl. lia.
Qed.

(** The value of [common] covers exactly the hours at which every member
    is free, and holds no empty interval. *)
Lemma common_free_slots_covers member members st :
  ∃ common,
    (common_free_slots (member :: members) st).2 = Ok common
    ∧ Forall (λ x : slot, x.1 < x.2) common
    ∧ ∀ t, covers common t ↔ common_free st (member :: members) t.
Proof.
  rewrite common_free_slots_spec. unfold intersect_all. simpl.
  eexists. split; [reflexivity|]. split.
  - apply fold_intersect_nonempty, free_of_nonempty.
  - intros t. rewrite covers_fold_intersect, drop_0.
    change (list_fmap _ _ ?f ?l) with (f <$> l).
    rewrite Forall_fmap, Forall_forall.
    unfold common_free. setoid_rewrite elem_of_cons. split.
    + intros [H1 H2] m [->|Hm]; [done|by apply H2].
    + intros H. split; [apply H; by left|].
      intros m Hm. apply H. by right.
Qed.

(** C2, as the code has it.  For every non-empty members sequence whose
    common free-interval intersection is empty (no hour at which every
    member is free), [find_common_free_time] returns the empty sequence; it
    is [meeting_message] that turns the empty sequence into the
    no-common-free-time message. *)
Theorem find_common_free_time_empty_intersection
    (members : list string) (st : store) :
  members ≠ [] →
  (∀ t, ¬ common_free st members t) →
  (common_free_slots members st).2 = Ok []
  ∧ (find_common_free_time members st).2 = Ok []
  ∧ (meeting_message members st).2 = Ok no_common_message.
Proof.
  intros Hne Hfree. destruct members as [|member members]; [done|].
  destruct (common_free_slots_covers member members st)
    as (common & Hc & Hnonempty & Hcov).
  assert (common = []) as ->.
  { destruct common as [|x common]; [done|]. exfalso.
    apply Forall_inv in Hnonempty.
    apply (Hfree x.1), Hcov. exists x. split; [by left|lia]. }
  split; [exact Hc|].
  unfold meeting_message, find_common_free_time, bind.
  destruct (common_free_slots (member :: members) st) as [st' r].
  simpl in Hc. subst r. split; reflexivity.
Qed.

Lemma find_common_free_time_empty_intersection_witness :
  let st : store := {[ "Alice" := [(9, 13)]; "Bob" := [(13, 18)] ]} in
  (common_free_slots ["Alice"; "Bob"] st).2 = Ok []
  ∧ (find_common_free_time ["Alice"; "Bob"] st).2 = Ok []
  ∧ (meeting_message ["Alice"; "Bob"] st).2 = Ok no_common_message.
Proof.
  intros st.
  apply (find_common_free_time_empty_intersection ["Alice"; "Bob"] st).
  - discriminate.
  - intros t H.
    assert (Ha : covers (free_of st "Alice") t) by (apply H; by left).
    assert (Hb : covers (free_of st "Bob") t)
      by (apply H; right; by left).
    replace (free_of st "Alice") with [(13, 18)] in Ha
      by (vm_compute; reflexivity).
    replace (free_of st "Bob") with [(9, 13)] in Hb
      by (vm_compute; reflexivity).
    destruct Ha as (x & Hx & Hxt), Hb as (y & Hy & Hyt).
    apply list_elem_of_singleton in Hx, Hy. subst. simpl in *. lia.
Defined.

(** C2 as stated fails: with Alice busy for the whole working day the
    intersection is empty and the call returns the empty sequence, not a
    sequence of one element. *)
Lemma find_common_free_time_empty_intersection_counterexample :
  let st : store := {[ "Alice" := [(9, 18)] ]} in
  ["Alice"] ≠ []
  ∧ (∀ t, ¬ common_free st ["Alice"] t)
  ∧ (find_common_free_time ["Alice"] st).2 = Ok []
  ∧ ∀ s : string, (find_common_free_time ["Alice"] st).2 ≠ Ok [s].
Proof.
  intros st. split; [discriminate|]. split.
  - intros t H.
    assert (Ha : covers (free_of st "Alice") t) by (apply H; by left).
    replace (free_of st "Alice") with (@nil slot) in Ha
      by (vm_compute; reflexivity).
    destruct Ha as (x & Hx & _). by apply elem_of_nil in Hx.
  - split; [vm_compute; reflexivity|].
    intros s. vm_compute. discriminate.
Qed.

(** No cursor position at or after [WORK_END] emits anything as long as no
    busy interval starts after [WORK_END]. *)
Lemma gaps_after_end busy : ∀ current,
  WORK_END ≤ current →
  Forall (λ b : slot, b.1 ≤ WORK_END) busy →
  gaps current busy = [].
Proof.
  induction busy as [|[s e] busy IH]; intros current Hc Hb; simpl.
  - by rewrite bool_decide_eq_false_2 by lia.
  - inversion Hb as [|? ? Hs Hb']; subst. simpl in Hs.
    rewrite bool_decide_eq_false_2 by lia. simpl.
    apply IH; [lia|done].
Qed.

Lemma gaps_full_day busy : ∀ current,
  StronglySorted tuple_le busy →
  (WORK_START, WORK_END) ∈ busy →
  WORK_START ≤ current →
  Forall (λ b : slot, b.1 ≤ WORK_END) busy →
  gaps current busy = [].
Proof.
  induction busy as [|[s e] busy IH]; intros current Hs Hin Hc Hb.
  - by apply elem_of_nil in Hin.
  - apply StronglySorted_inv in Hs as [Hs Hhd].
    inversion Hb as [|? ? Hse Hb']; subst. simpl in Hse.
    apply elem_of_cons in Hin as [Heq|Hin]; simpl.
    + injection Heq as <- <-.
      rewrite bool_decide_eq_false_2 by lia. simpl.
      apply gaps_after_end; [lia|done].
    + rewrite Forall_forall in Hhd. specialize (Hhd _ Hin).
      unfold tuple_le in Hhd. simpl in Hhd.
      rewrite bool_decide_eq_false_2 by lia. simpl.
      apply IH; [done|done|lia|done].
Qed.

(** A person busy from 9 to 18, none of whose busy intervals starts after
    [WORK_END], has no free time. *)
Lemma free_of_full_day st p :
  (WORK_START, WORK_END) ∈ busy_of st p →
  Forall (λ b : slot, b.1 ≤ WORK_END) (busy_of st p) →
  free_of st p = [].
Proof.
  intros Hin Hb. unfold free_of. rewrite get_free_slots_gaps. simpl.
  apply gaps_full_day.
  - apply Sorted_StronglySorted; [apply _|apply sort_sorted].
  - by rewrite sort_perm.
  - lia.
  - by apply Forall_sort.
Qed.

Lemma intersect_all_empty (all_free_slots : list (list slot)) :
  [] ∈ all_free_slots → intersect_all all_free_slots = Ok [].
Proof.
  intros Hin. destruct all_free_slots as [|common rest].
  - by apply elem_of_nil in Hin.
  - unfold intersect_all. simpl. f_equal.
    apply fold_intersect_empty.
    apply elem_of_cons in Hin as [<-|Hin]; auto.
Qed.

(** C9, as the code has it.  For every members sequence containing some
    participant whose BusyList includes the busy interval from 9 to 18 and
    has no busy interval starting after [WORK_END], the common intersection
    computed by [find_common_free_time] is empty, and [meeting_message] for
    those members returns the fixed no-common-free-time message. *)
Theorem full_day_busy_no_common_time
    (members : list string) (st : store) (p : string) :
  p ∈ members →
  (WORK_START, WORK_END) ∈ busy_of st p →
  Forall (λ b : slot, b.1 ≤ WORK_END) (busy_of st p) →
  (common_free_slots members st).2 = Ok []
  ∧ (find_common_free_time members st).2 = Ok []
  ∧ (meeting_message members st).2 = Ok no_common_message.
Proof.
  intros Hp Hin Hb.
  assert (Hc : (common_free_slots members st).2 = Ok []).
  { rewrite common_free_slots_spec. simpl. apply intersect_all_empty.
    rewrite <- (free_of_full_day st p Hin Hb).
    by apply list_elem_of_fmap_2. }
  split; [exact Hc|].
  unfold meeting_message, find_common_free_time, bind.
  destruct (common_free_slots members st) as [st' r]. simpl in Hc.
  subst r. split; reflexivity.
Qed.

Lemma full_day_busy_no_common_time_witness :
  let st : store :=
    {[ "Alice" := [(14, 16); (9, 18)]; "Bob" := [(10, 11)] ]} in
  (common_free_slots ["Bob"; "Alice"] st).2 = Ok []
  ∧ (find_common_free_time ["Bob"; "Alice"] st).2 = Ok []
  ∧ (meeting_message ["Bob"; "Alice"] st).2 = Ok no_common_message.
Proof.
  intros st.
  apply (full_day_busy_no_common_time ["Bob"; "Alice"] st "Alice").
  - apply elem_of_cons. right. apply elem_of_cons. by left.
  - replace (busy_of st "Alice") with [(14, 16); (9, 18)]
      by (vm_compute; reflexivity).
    apply elem_of_cons. right. apply elem_of_cons. by left.
  - replace (busy_of st "Alice") with [(14, 16); (9, 18)]
      by (vm_compute; reflexivity).
    repeat constructor; unfold WORK_END; simpl; lia.
Defined.

(** C9 as stated fails: a participant busy from 9 to 18 and again from 20
    to 21 is resolved to the free interval (18, 20), so the intersection is
    not empty and the message announces 18:00–20:00. *)
Lemma full_day_busy_no_common_time_counterexample :
  let st : store := {[ "Pat" := [(9, 18); (20, 21)] ]} in
  "Pat" ∈ ["Pat"]
  ∧ (9, 18) ∈ busy_of st "Pat"
  ∧ Forall interval_wf (busy_of st "Pat")
  ∧ (common_free_slots ["Pat"] st).2 = Ok [(18, 20)]
  ∧ (meeting_message ["Pat"] st).2
    = Ok ("All members (Pat) are available at the following times: "
          +:+ "18:00–20:00. Please confirm which slot works best.")
  ∧ (meeting_message ["Pat"] st).2 ≠ Ok no_common_message.
Proof.
  intros st.
  replace (busy_of st "Pat") with [(9, 18); (20, 21)]
    by (vm_compute; reflexivity).
  split; [by left|].
  split; [by left|].
  split; [repeat constructor; simpl; lia|].
  split; [vm_compute; reflexivity|].
  split; [vm_compute; reflexivity|].
  vm_compute. discriminate.
Qed.

(** * Effects on the store *)

(** C3, as the code has it.  [find_common_free_time] creates and removes
    no entry and keeps the contents of every BusyList up to order: after
    the call the BusyList of each requested member present in the store is
    its previous value sorted ascending (by start, then by end), and every
    other entry is as before.  The resolver leaves the BusyList it is given
    sorted, a permutation of what it was. *)
Theorem find_common_free_time_store_effect
    (members : list string) (st : store) (busy : list slot) :
  (∀ name,
     (find_common_free_time members st).1 !! name
     = if decide (name ∈ members) then sort <$> st !! name else st !! name)
  ∧ (get_free_slots busy).1 = sort busy
  ∧ Sorted tuple_le (sort busy)
  ∧ sort busy ≡ₚ busy.
Proof.
  split; [|split; [|split]].
  - intros name. rewrite find_common_free_time_spec. simpl.
    apply lookup_touch_all.
  - by rewrite get_free_slots_gaps.
  - apply sort_sorted.
  - apply sort_perm.
Qed.

(** C3 as stated fails: a query for Alice reorders her BusyList in the
    store, and the resolver reorders the list it is given. *)
Lemma find_common_free_time_store_effect_counterexample :
  let st : store := {[ "Alice" := [(14, 16); (10, 11)] ]} in
  (find_common_free_time ["Alice"] st).1 ≠ st
  ∧ (find_common_free_time ["Alice"] st).1 !! "Alice"
    = Some [(10, 11); (14, 16)]
  ∧ (get_free_slots [(14, 16); (10, 11)]).1 ≠ [(14, 16); (10, 11)].
Proof.
  intros st.
  assert (H : (find_common_free_time ["Alice"] st).1 !! "Alice"
              = Some [(10, 11); (14, 16)]) by (vm_compute; reflexivity).
  split; [|split; [exact H|]].
  - intros Heq. rewrite Heq in H. vm_compute in H. discriminate.
  - vm_compute. discriminate.
Qed.





(** * Further properties of the resolver *)

Lemma sort_perm_eq busy busy' : busy ≡ₚ busy' → sort busy = sort busy'.
Proof.
  intros Hp. apply sort_unique; [apply sort_sorted|].
  by rewrite sort_perm.
Qed.

(** X1. The resolver depends only on which busy intervals are recorded, not
    on the order in which they stand in the list: two BusyLists that are
    permutations of each other are left in the same (sorted) state and give
    the same FreeList. *)
Theorem get_free_slots_perm (busy busy' : list slot) :
  busy ≡ₚ busy' → get_free_slots busy = get_free_slots busy'.
Proof.
  intros Hp. rewrite !get_free_slots_gaps.
  by rewrite (sort_perm_eq busy busy' Hp).
Qed.

Lemma get_free_slots_perm_witness :
  get_free_slots [(14, 16); (10, 11); (9, 10)]
  = get_free_slots [(9, 10); (14, 16); (10, 11)].
Proof.
  apply (get_free_slots_perm [(14, 16); (10, 11); (9, 10)]
           [(9, 10); (14, 16); (10, 11)]).
  symmetry. apply (Permutation_cons_append [(14, 16); (10, 11)] (9, 10)).
Defined.

Lemma covers_app l1 l2 t : covers (l1 ++ l2) t ↔ covers l1 t ∨ covers l2 t.
Proof.
  unfold covers. split.
  - intros (x & Hx & Ht). apply elem_of_app in Hx as [Hx|Hx]; eauto.
  - intros [(x & Hx & Ht)|(x & Hx & Ht)]; exists x;
      (split; [apply elem_of_app; auto|done]).
Qed.

Lemma covers_nil t : covers [] t ↔ False.
Proof.
  split; [|done]. intros (x & Hx & _). by apply elem_of_nil in Hx.
Qed.

Lemma covers_singleton x t : covers [x] t ↔ x.1 ≤ t ∧ t < x.2.
Proof.
  unfold covers. split.
  - intros (y & Hy & Ht). by apply list_elem_of_singleton in Hy as ->.
  - intros Ht. exists x. split; [by apply list_elem_of_singleton|done].
Qed.

(** The hours the scan emits, on a sorted busy list. *)
Lemma gaps_covers t busy : ∀ current,
  StronglySorted tuple_le busy →
  covers (gaps current busy) t
  ↔ current ≤ t
    ∧ (∀ b, b ∈ busy → t < b.1 ∨ b.2 ≤ t)
    ∧ (t < WORK_END ∨ ∃ b, b ∈ busy ∧ t < b.1).
Proof.
  induction busy as [|[s e] busy IH]; intros current Hs; simpl.
  - case_bool_decide.
    + rewrite covers_singleton. simpl. split.
      * intros Ht. split; [lia|]. split; [|left; lia].
        intros b Hb. by apply elem_of_nil in Hb.
      * intros (Hc & _ & [Ht|(b & Hb & _)]); [lia|].
        by apply elem_of_nil in Hb.
    + rewrite covers_nil. split; [done|].
      intros (Hc & _ & [Ht|(b & Hb & _)]); [lia|].
      by apply elem_of_nil in Hb.
  - apply StronglySorted_inv in Hs as [Hs Hhd].
    rewrite Forall_forall in Hhd.
    rewrite covers_app, (IH _ Hs). setoid_rewrite elem_of_cons. split.
    + intros [Hc|(Hc & Hall & Hend)].
      * assert (current ≤ t ∧ t < s) as [H1 H2].
        { case_bool_decide; [by apply covers_singleton in Hc|].
          by apply covers_nil in Hc. }
        split; [done|]. split.
        -- intros b [->|Hb]; [simpl; lia|].
           specialize (Hhd b Hb). unfold tuple_le in Hhd. simpl in Hhd. lia.
        -- right. exists (s, e). split; [by left|done].
      * split; [lia|]. split.
        -- intros b [->|Hb]; [simpl; lia|by apply Hall].
        -- destruct Hend as [?|(b & Hb & Hbt)]; [by left|].
           right. exists b. split; [by right|done].
    + intros (Hc & Hall & Hend).
      destruct (decide (t < s)) as [Hts|Hts].
      * left. rewrite bool_decide_eq_true_2 by lia.
        apply covers_singleton. simpl. lia.
      * right. pose proof (Hall (s, e) (or_introl eq_refl)) as Hse.
        simpl in Hse. split; [lia|]. split.
        -- intros b Hb. apply Hall. by right.
        -- destruct Hend as [?|(b & [->|Hb] & Hbt)]; [by left|simpl in Hbt; lia|].
           right. by exists b.
Qed.

Lemma get_free_slots_covers (busy : list slot) (t : Z) :
  covers (get_free_slots busy).2 t
  ↔ WORK_START ≤ t
    ∧ ¬ busy_at busy t
    ∧ (t < WORK_END ∨ ∃ b, b ∈ busy ∧ t < b.1).
Proof.
  rewrite get_free_slots_gaps. simpl. rewrite gaps_covers
    by (apply Sorted_StronglySorted; [apply _|apply sort_sorted]).
  unfold busy_at. setoid_rewrite (sort_perm busy). split.
  - intros (H1 & H2 & H3). split; [done|]. split; [|done].
    intros (b & Hb & Hbt). specialize (H2 b Hb). lia.
  - intros (H1 & H2 & H3). split; [done|]. split; [|done].
    intros b Hb. destruct (decide (t < b.1)); [by left|right].
    destruct (decide (b.2 ≤ t)); [done|].
    exfalso. apply H2. exists b. split; [done|lia].
Qed.

Lemma get_free_slots_covers_day (busy : list slot) (t : Z) :
  WORK_START ≤ t < WORK_END →
  covers (get_free_slots busy).2 t ↔ ¬ busy_at busy t.
Proof.
  intros Ht. rewrite get_free_slots_covers. split.
  - by intros (_ & Hb & _).
  - intros Hb. split; [lia|]. split; [done|left; lia].
Qed.

(** X2. What the resolver computes, for any BusyList, malformed or not: an
    hour [t] lies in some interval of the returned FreeList exactly when it
    is not before [WORK_START], it lies in no busy interval, and either it
    is before [WORK_END] or some busy interval starts after it.  Inside the
    working day this reads: free exactly when not busy. *)
Theorem resolver_covers (busy : list slot) (t : Z) :
  (covers (get_free_slots busy).2 t
   ↔ WORK_START ≤ t
     ∧ ¬ busy_at busy t
     ∧ (t < WORK_END ∨ ∃ b, b ∈ busy ∧ t < b.1))
  ∧ (WORK_START ≤ t < WORK_END →
     covers (get_free_slots busy).2 t ↔ ¬ busy_at busy t).
Proof.
  split; [apply get_free_slots_covers|apply get_free_slots_covers_day].
Qed.

Lemma resolver_covers_witness :
  covers (get_free_slots [(14, 16); (10, 11)]).2 12
  ↔ ¬ busy_at [(14, 16); (10, 11)] 12.
Proof.
  apply (proj2 (resolver_covers [(14, 16); (10, 11)] 12)).
  unfold WORK_START, WORK_END. lia.
Defined.

Lemma gaps_length busy : ∀ current,
  (length (gaps current busy) ≤ length busy + 1)%nat.
Proof.
  induction busy as [|[s e] busy IH]; intros current; simpl.
  - case_bool_decide; simpl; lia.
  - rewrite length_app. specialize (IH (Z.max current e)).
    case_bool_decide; simpl; lia.
Qed.

(** X3. The resolver returns at most one free interval more than there are
    busy intervals, and it keeps the number of busy intervals. *)
Theorem get_free_slots_length (busy : list slot) :
  (length (get_free_slots busy).2 ≤ length busy + 1)%nat
  ∧ length (get_free_slots busy).1 = length busy.
Proof.
  rewrite get_free_slots_gaps. simpl. split.
  - etrans; [apply gaps_length|]. by rewrite (sort_perm busy).
  - by rewrite (sort_perm busy).
Qed.

(** * Order of the participants *)

Lemma intersect_comm common slots :
  StronglySorted precedes common → StronglySorted precedes slots →
  intersect common slots = intersect slots common.
Proof.
  intros Hc Hs. apply free_list_ext; auto using intersect_sorted.
  intros x. rewrite !elem_of_intersect. split.
  - intros (a & b & Ha & Hb & Hx). exists b, a. repeat split; try done; lia.
  - intros (a & b & Ha & Hb & Hx). exists b, a. repeat split; try done; lia.
Qed.

Lemma intersect_right_comm common slots slots' :
  StronglySorted precedes common → StronglySorted precedes slots →
  StronglySorted precedes slots' →
  intersect (intersect common slots) slots'
  = intersect (intersect common slots') slots.
Proof.
  intros Hc Hs Hs'. apply free_list_ext; auto using intersect_sorted.
  intros x. rewrite !elem_of_intersect3. split.
  - intros (a & b & c & Ha & Hb & Hc' & Hx).
    exists a, c, b. repeat split; try done; lia.
  - intros (a & b & c & Ha & Hb & Hc' & Hx).
    exists a, c, b. repeat split; try done; lia.
Qed.

Lemma fold_intersect_sorted rest : ∀ common,
  Forall (StronglySorted precedes) rest → StronglySorted precedes common →
  StronglySorted precedes (fold_left intersect rest common).
Proof.
  induction rest as [|slots rest IH]; intros common Hr Hc; simpl; [done|].
  apply Forall_cons in Hr as [Hs Hr]. apply IH; [done|].
  by apply intersect_sorted.
Qed.

Lemma fold_intersect_perm rest rest' :
  rest ≡ₚ rest' →
  Forall (StronglySorted precedes) rest →
  ∀ common, StronglySorted precedes common →
  fold_left intersect rest common = fold_left intersect rest' common.
Proof.
  induction 1 as [|slots rest rest' Hp IH|s1 s2 rest|l1 l2 l3 H12 IH12 H23 IH23];
    intros Hr common Hc; simpl.
  - done.
  - apply Forall_cons in Hr as [Hs Hr]. apply IH; [done|].
    by apply intersect_sorted.
  - apply Forall_cons in Hr as [Hs2 Hr]. apply Forall_cons in Hr as [Hs1 Hr].
    by rewrite (intersect_right_comm common s2 s1).
  - rewrite IH12 by done. apply IH23; [|done]. by rewrite <- H12.
Qed.

(** The fold of the intersector gives the same sequence for every
    arrangement of the same FreeLists. *)
Lemma intersect_all_perm (l l' : list (list slot)) :
  l ≡ₚ l' → Forall (StronglySorted precedes) l →
  intersect_all l = intersect_all l'.
Proof.
  induction 1 as [|slots rest rest' Hp IH|s1 s2 rest|l1 l2 l3 H12 IH12 H23 IH23];
    intros Hl.
  - done.
  - apply Forall_cons in Hl as [Hs Hr]. unfold intersect_all. simpl.
    f_equal. rewrite !drop_0. by apply fold_intersect_perm.
  - apply Forall_cons in Hl as [Hs2 Hl]. apply Forall_cons in Hl as [Hs1 Hr].
    unfold intersect_all. simpl. by rewrite (intersect_comm s2 s1).
  - rewrite IH12 by done. apply IH23. by rewrite <- H12.
Qed.

Lemma free_of_sorted st member :
  Forall (λ b : slot, b.1 < b.2) (busy_of st member) →
  StronglySorted precedes (free_of st member).
Proof.
  intros Hb. unfold free_of. rewrite get_free_slots_gaps. simpl.
  by apply gaps_sorted, Forall_sort.
Qed.

(** With a malformed busy interval ([start >= end]) the order does show:
    the same two participants give differently ordered answers. *)
Example members_order_shows_when_malformed :
  let st : store :=
    {[ "Pat" := [(12, 10); (13, 14)]; "Quinn" := [(11, 11)] ]} in
  (find_common_free_time ["Pat"; "Quinn"] st).2
  = Ok ["9:00–11:00"; "11:00–12:00"; "10:00–11:00"; "11:00–13:00";
        "14:00–18:00"]
  ∧ (find_common_free_time ["Quinn"; "Pat"] st).2
    = Ok ["9:00–11:00"; "10:00–11:00"; "11:00–12:00"; "11:00–13:00";
          "14:00–18:00"].
Proof. split; vm_compute; reflexivity. Qed.

(** * Queries and registrations *)

Lemma free_of_touch_all members : ∀ st name,
  free_of (fold_left (λ st member, touch member st) members st) name
  = free_of st name.
Proof.
  induction members as [|member members IH]; intros st name; simpl; [done|].
  by rewrite IH, free_of_touch.
Qed.

(** The answer of a query is determined by the FreeLists of its members. *)
Lemma find_common_free_time_result_ext members st st' :
  (∀ member, member ∈ members → free_of st member = free_of st' member) →
  (find_common_free_time members st).2
  = (find_common_free_time members st').2.
Proof.
  intros H. rewrite !find_common_free_time_spec. simpl.
  replace (free_of st' <$> members) with (free_of st <$> members); [done|].
  apply list_fmap_ext. intros i member Hm. apply H.
  by eapply list_elem_of_lookup_2.
Qed.

Lemma free_of_perm st st' member :
  busy_of st member ≡ₚ busy_of st' member →
  free_of st member = free_of st' member.
Proof.
  intros Hp. unfold free_of. rewrite !get_free_slots_gaps. simpl.
  by rewrite (sort_perm_eq _ _ Hp).
Qed.

(** X5. The reordering of the stored lists by a query is invisible to
    every later query: after [find_common_free_time members], any query
    returns what it would have returned before, and repeating the same
    query leaves the store as the first one left it. *)
Theorem find_common_free_time_observably_pure
    (members members' : list string) (st : store) :
  (find_common_free_time members'
     (find_common_free_time members st).1).2
  = (find_common_free_time members' st).2
  ∧ (find_common_free_time members
       (find_common_free_time members st).1).1
    = (find_common_free_time members st).1.
Proof.
  split.
  - apply find_common_free_time_result_ext. intros member _.
    rewrite find_common_free_time_spec. simpl. apply free_of_touch_all.
  - rewrite !find_common_free_time_spec. simpl.
    apply map_eq. intros name. rewrite !lookup_touch_all.
    case_decide; [|done].
    destruct (st !! name) as [busy|]; simpl; [|done].
    by rewrite sort_idemp.
Qed.

Lemma add_busy_time_store name start end_ st :
  (add_busy_time name start end_ st).1
  = <[name := busy_of st name ++ [(start, end_)]]> st.
Proof.
  unfold add_busy_time, busy_of.
  destruct (st !! name) as [l|] eqn:E; cbv zeta.
  - rewrite E. by destruct (render_slot (start, end_)).
  - rewrite lookup_insert_eq. simpl. rewrite insert_insert_eq.
    by destruct (render_slot (start, end_)).
Qed.

Lemma busy_of_add name start end_ st person :
  busy_of (add_busy_time name start end_ st).1 person
  = if decide (person = name) then busy_of st name ++ [(start, end_)]
    else busy_of st person.
Proof.
  rewrite add_busy_time_store. unfold busy_of at 1. case_decide as Hp.
  - subst. by rewrite lookup_insert_eq.
  - by rewrite lookup_insert_ne.
Qed.

(** X6. Registrations commute as far as queries can tell: whichever of two
    busy times (of the same person or of two persons) is added first, every
    later [find_common_free_time] returns the same answer. *)
Theorem add_busy_time_order_irrelevant
    (n1 n2 : string) (s1 e1 s2 e2 : Z) (members : list string) (st : store) :
  (find_common_free_time members
     (add_busy_time n2 s2 e2 (add_busy_time n1 s1 e1 st).1).1).2
  = (find_common_free_time members
       (add_busy_time n1 s1 e1 (add_busy_time n2 s2 e2 st).1).1).2.
Proof.
  apply find_common_free_time_result_ext. intros member _.
  apply free_of_perm. rewrite !busy_of_add.
  repeat case_decide; simplify_eq; try done.
  rewrite <- !app_assoc. apply Permutation_app_head, Permutation_swap.
Qed.

(** * What the common free time is *)

Lemma intersect_lower (lo : Z) common slots :
  Forall (λ x : slot, lo ≤ x.1) common →
  Forall (λ x : slot, lo ≤ x.1) (intersect common slots).
Proof.
  rewrite !Forall_forall. intros Hc x Hx.
  apply elem_of_intersect in Hx as (a & b & Ha & _ & Hx).
  specialize (Hc a Ha). lia.
Qed.

Lemma intersect_upper (hi : Z) common slots :
  Forall (λ x : slot, x.2 ≤ hi) common →
  Forall (λ x : slot, x.2 ≤ hi) (intersect common slots).
Proof.
  rewrite !Forall_forall. intros Hc x Hx.
  apply elem_of_intersect in Hx as (a & b & Ha & _ & Hx).
  specialize (Hc a Ha). lia.
Qed.

Lemma fold_intersect_lower (lo : Z) rest : ∀ common,
  Forall (λ x : slot, lo ≤ x.1) common →
  Forall (λ x : slot, lo ≤ x.1) (fold_left intersect rest common).
Proof.
  induction rest as [|slots rest IH]; intros common Hc; simpl; [done|].
  by apply IH, intersect_lower.
Qed.

Lemma fold_intersect_upper (hi : Z) rest : ∀ common,
  Forall (λ x : slot, x.2 ≤ hi) common →
  Forall (λ x : slot, x.2 ≤ hi) (fold_left intersect rest common).
Proof.
  induction rest as [|slots rest IH]; intros common Hc; simpl; [done|].
  by apply IH, intersect_upper.
Qed.

Lemma free_of_lower st member :
  Forall (λ x : slot, WORK_START ≤ x.1) (free_of st member).
Proof.
  unfold free_of. rewrite get_free_slots_gaps. simpl.
  eapply Forall_impl; [apply gaps_nonempty|]. simpl. lia.
Qed.

Lemma free_of_upper st member :
  Forall (λ b : slot, b.1 ≤ WORK_END) (busy_of st member) →
  Forall (λ x : slot, x.2 ≤ WORK_END) (free_of st member).
Proof.
  intros Hb. unfold free_of. rewrite get_free_slots_gaps. simpl.
  apply gaps_upper; [lia|]. by apply Forall_sort.
Qed.

Lemma free_of_covers_day st member t :
  WORK_START ≤ t < WORK_END →
  covers (free_of st member) t ↔ ¬ busy_at (busy_of st member) t.
Proof. apply get_free_slots_covers_day. Qed.

(** X7. What [find_common_free_time] answers for a non-empty members
    sequence.  The intersection [common] it computes has no empty interval
    and none starting before [WORK_START], and covers, inside the working
    day, exactly the hours at which no requested member has a busy interval
    in progress.  The call returns the formatted intervals of [common] when
    every bound of them has at most 4300 decimal digits, and raises the
    conversion error otherwise. *)
Theorem find_common_free_time_meaning
    (member : string) (members : list string) (st : store) :
  ∃ common,
    (common_free_slots (member :: members) st).2 = Ok common
    ∧ (find_common_free_time (member :: members) st).2 = render_all common
    ∧ (Forall (λ x : slot, printable x.1 ∧ printable x.2) common →
       render_all common = Ok (format_slot <$> common))
    ∧ (¬ Forall (λ x : slot, printable x.1 ∧ printable x.2) common →
       render_all common = Raise ValueError)
    ∧ Forall (λ x : slot, WORK_START ≤ x.1 ∧ x.1 < x.2) common
    ∧ ∀ t, WORK_START ≤ t < WORK_END →
        covers common t
        ↔ ∀ p, p ∈ member :: members → ¬ busy_at (busy_of st p) t.
Proof.
  destruct (common_free_slots_covers member members st)
    as (common & Hc & Hne & Hcov).
  exists common. split; [exact Hc|]. split; [|split; [|split; [|split]]].
  - unfold find_common_free_time, bind.
    destruct (common_free_slots (member :: members) st) as [st' r].
    simpl in Hc. by subst r.
  - apply render_all_ok.
  - apply render_all_raise.
  - rewrite common_free_slots_spec in Hc. unfold intersect_all in Hc.
    simpl in Hc. injection Hc as <-.
    pose proof (fold_intersect_lower WORK_START
                  (drop 0 (free_of st <$> members)) (free_of st member)
                  (free_of_lower st member)) as Hlo.
    rewrite Forall_forall in Hlo, Hne. apply Forall_forall.
    intros x Hx. split; [by apply Hlo|by apply Hne].
  - intros t Ht. rewrite Hcov. unfold common_free. split.
    + intros H p Hp. apply (free_of_covers_day st p t Ht), H, Hp.
    + intros H p Hp. apply (free_of_covers_day st p t Ht), H, Hp.
Qed.

(** X8. The intersection a query computes is a FreeList whenever the
    recorded busy intervals of its members have [start < end]: for a
    non-empty members sequence the common intervals, which the call then
    renders, are sorted by start, strictly increasing and non-overlapping. *)
Theorem find_common_free_time_sorted
    (members : list string) (st : store) :
  members ≠ [] →
  (∀ member, member ∈ members →
     Forall (λ b : slot, b.1 < b.2) (busy_of st member)) →
  ∃ common,
    (common_free_slots members st).2 = Ok common
    ∧ (find_common_free_time members st).2 = render_all common
    ∧ free_list_inv common.
Proof.
  intros Hne Hwf. destruct members as [|member members]; [done|].
  rewrite find_common_free_time_spec, common_free_slots_spec.
  unfold intersect_all. simpl. eexists. split; [reflexivity|].
  split; [reflexivity|].
  apply free_list_inv_strong, fold_intersect_sorted.
  - rewrite drop_0. apply Forall_forall. intros l Hl.
    apply list_elem_of_fmap in Hl as (p & -> & Hp).
    apply free_of_sorted, Hwf. by right.
  - apply free_of_sorted, Hwf. by left.
Qed.

Lemma find_common_free_time_sorted_witness :
  let st : store :=
    {[ "Alice" := [(14, 16); (10, 11)]; "Bob" := [(9, 10); (13, 15)] ]} in
  ∃ common,
    (common_free_slots ["Alice"; "Bob"] st).2 = Ok common
    ∧ (find_common_free_time ["Alice"; "Bob"] st).2 = render_all common
    ∧ free_list_inv common.
Proof.
  intros st.
  apply (find_common_free_time_sorted ["Alice"; "Bob"] st).
  - discriminate.
  - intros member Hm.
    repeat (apply elem_of_cons in Hm as [->|Hm]);
      [replace (busy_of st "Alice") with [(14, 16); (10, 11)]
         by (vm_compute; reflexivity)
      |replace (busy_of st "Bob") with [(9, 10); (13, 15)]
         by (vm_compute; reflexivity)
      |by apply elem_of_nil in Hm];
      repeat constructor; simpl; lia.
Defined.

Lemma busy_at_app busy x t :
  busy_at (busy ++ [x]) t ↔ busy_at busy t ∨ (x.1 ≤ t ∧ t < x.2).
Proof.
  unfold busy_at. split.
  - intros (b & Hb & Ht). apply elem_of_app in Hb as [Hb|Hb]; [eauto|].
    apply list_elem_of_singleton in Hb as ->. by right.
  - intros [(b & Hb & Ht)|Ht].
    + exists b. split; [apply elem_of_app; by left|done].
    + exists x. split; [|done].
      apply elem_of_app. right. by apply list_elem_of_singleton.
Qed.

Lemma free_of_add_other name start end_ st person :
  person ≠ name →
  free_of (add_busy_time name start end_ st).1 person = free_of st person.
Proof.
  intros Hp. unfold free_of. rewrite busy_of_add. by rewrite decide_False.
Qed.

(** Inside the working day, a registration removes exactly its own hours
    from the person's free time. *)
Lemma free_of_add_covers name start end_ st t :
  WORK_START ≤ t < WORK_END →
  covers (free_of (add_busy_time name start end_ st).1 name) t
  ↔ covers (free_of st name) t ∧ ¬ (start ≤ t ∧ t < end_).
Proof.
  intros Ht. rewrite !free_of_covers_day by done.
  rewrite busy_of_add, decide_True by done.
  rewrite busy_at_app. simpl. tauto.
Qed.

(** X9. How a registration changes later answers.  A query that does not
    name the person is answered as before.  A query that names the person
    loses, inside the working day, exactly the hours of the added busy
    time: an hour is covered by the new common intervals exactly when it was
    covered before and does not lie in [[start, end)]. *)
Theorem add_busy_time_query_effect
    (name : string) (start end_ : Z) (members : list string) (st : store) :
  (name ∉ members →
   (find_common_free_time members (add_busy_time name start end_ st).1).2
   = (find_common_free_time members st).2)
  ∧ (name ∈ members →
     ∃ common common',
       (common_free_slots members st).2 = Ok common
       ∧ (common_free_slots members
            (add_busy_time name start end_ st).1).2 = Ok common'
       ∧ ∀ t, WORK_START ≤ t < WORK_END →
           covers common' t
           ↔ covers common t ∧ ¬ (start ≤ t ∧ t < end_)).
Proof.
  split.
  - intros Hn. apply find_common_free_time_result_ext. intros member Hm.
    apply free_of_add_other. intros ->. done.
  - intros Hin. destruct members as [|member members].
    { by apply elem_of_nil in Hin. }
    destruct (common_free_slots_covers member members st)
      as (common & Hc & _ & Hcov).
    destruct (common_free_slots_covers member members
                (add_busy_time name start end_ st).1)
      as (common' & Hc' & _ & Hcov').
    exists common, common'. split; [done|]. split; [done|].
    intros t Ht. rewrite Hcov, Hcov'. unfold common_free. split.
    + intros H. split.
      * intros p Hp. specialize (H p Hp).
        destruct (decide (p = name)) as [->|Hne].
        -- by apply (free_of_add_covers name start end_ st t Ht) in H as [H _].
        -- by rewrite free_of_add_other in H.
      * specialize (H name Hin).
        by apply (free_of_add_covers name start end_ st t Ht) in H as [_ H].
    + intros [H Hse] p Hp. specialize (H p Hp).
      destruct (decide (p = name)) as [->|Hne].
      * by apply (free_of_add_covers name start end_ st t Ht).
      * by rewrite free_of_add_other.
Qed.

(** * The announcement *)


(** * A participant without busy times *)

Lemma meet_full_day_r a :
  WORK_START ≤ a.1 → a.1 < a.2 → a.2 ≤ WORK_END →
  meet a (WORK_START, WORK_END) = [a].
Proof.
  intros H1 H2 H3. unfold meet, intersect_step. destruct a as [s e].
  simpl in *. rewrite bool_decide_eq_true_2 by lia.
  simpl. do 2 f_equal; lia.
Qed.

Lemma meet_full_day_l b :
  WORK_START ≤ b.1 → b.1 < b.2 → b.2 ≤ WORK_END →
  meet (WORK_START, WORK_END) b = [b].
Proof.
  intros H1 H2 H3. unfold meet, intersect_step. destruct b as [s e].
  simpl in *. rewrite bool_decide_eq_true_2 by lia.
  simpl. do 2 f_equal; lia.
Qed.

Lemma intersect_full_day_r l :
  Forall (λ x : slot, WORK_START ≤ x.1 ∧ x.1 < x.2 ∧ x.2 ≤ WORK_END) l →
  intersect l [(WORK_START, WORK_END)] = l.
Proof.
  rewrite intersect_bind. induction 1 as [|a l (H1 & H2 & H3) Hl IH]; [done|].
  rewrite bind_cons, IH. simpl. rewrite app_nil_r.
  by rewrite meet_full_day_r.
Qed.

Lemma intersect_full_day_l l :
  Forall (λ x : slot, WORK_START ≤ x.1 ∧ x.1 < x.2 ∧ x.2 ≤ WORK_END) l →
  intersect [(WORK_START, WORK_END)] l = l.
Proof.
  rewrite intersect_bind. simpl. rewrite app_nil_r.
  induction 1 as [|b l (H1 & H2 & H3) Hl IH]; [done|].
  rewrite bind_cons, IH. by rewrite meet_full_day_l.
Qed.

Lemma Forall_and3 (l : list slot) (lo hi : Z) :
  Forall (λ x : slot, lo ≤ x.1) l →
  Forall (λ x : slot, x.1 < x.2) l →
  Forall (λ x : slot, x.2 ≤ hi) l →
  Forall (λ x : slot, lo ≤ x.1 ∧ x.1 < x.2 ∧ x.2 ≤ hi) l.
Proof.
  rewrite !Forall_forall. intros H1 H2 H3 x Hx. auto.
Qed.

Lemma free_of_within st member :
  Forall (λ b : slot, b.1 ≤ WORK_END) (busy_of st member) →
  Forall (λ x : slot, WORK_START ≤ x.1 ∧ x.1 < x.2 ∧ x.2 ≤ WORK_END)
    (free_of st member).
Proof.
  intros Hb. apply Forall_and3;
    auto using free_of_lower, free_of_nonempty, free_of_upper.
Qed.

(** X11. A person without an entry in the store is neutral for a query:
    when the first requested member has no busy interval starting after
    [WORK_END], listing such a person in addition, in front or at the end,
    does not change the answer. *)
Theorem unknown_person_neutral
    (p member : string) (members : list string) (st : store) :
  st !! p = None →
  Forall (λ b : slot, b.1 ≤ WORK_END) (busy_of st member) →
  (find_common_free_time (p :: member :: members) st).2
  = (find_common_free_time (member :: members) st).2
  ∧ (find_common_free_time ((member :: members) ++ [p]) st).2
    = (find_common_free_time (member :: members) st).2.
Proof.
  intros Hp Hb.
  assert (Hfull : free_of st p = [(WORK_START, WORK_END)]).
  { unfold free_of, busy_of. by rewrite Hp. }
  pose proof (free_of_within st member Hb) as Hw.
  rewrite !find_common_free_time_spec. unfold intersect_all. simpl.
  rewrite !drop_0.
  change (list_fmap _ _ ?f ?l) with (f <$> l). split.
  - by rewrite Hfull, intersect_full_day_l.
  - rewrite fmap_app, fold_left_app. simpl.
    rewrite Hfull, intersect_full_day_r; [done|].
    apply Forall_and3.
    + apply fold_intersect_lower. eapply Forall_impl; [exact Hw|].
      simpl. tauto.
    + apply fold_intersect_nonempty. eapply Forall_impl; [exact Hw|].
      simpl. tauto.
    + apply fold_intersect_upper. eapply Forall_impl; [exact Hw|].
      simpl. tauto.
Qed.

Lemma unknown_person_neutral_witness :
  let st : store :=
    {[ "Alice" := [(14, 16); (10, 11)]; "Bob" := [(9, 10); (20, 21)] ]} in
  (find_common_free_time ["Carol"; "Alice"; "Bob"] st).2
  = (find_common_free_time ["Alice"; "Bob"] st).2
  ∧ (find_common_free_time (["Alice"; "Bob"] ++ ["Carol"]) st).2
    = (find_common_free_time ["Alice"; "Bob"] st).2.
Proof.
  intros st. apply (unknown_person_neutral "Carol" "Alice" ["Bob"] st).
  - vm_compute. reflexivity.
  - replace (busy_of st "Alice") with [(14, 16); (10, 11)]
      by (vm_compute; reflexivity).
    repeat constructor; unfold WORK_END; simpl; lia.
Defined.

(** Without the bound the added person does change the answer: it clips
    the free time that the resolver lets run past [WORK_END]. *)
Example unknown_person_clips :
  let st : store := {[ "Bob" := [(20, 21)] ]} in
  (find_common_free_time ["Bob"] st).2 = Ok ["9:00–20:00"]
  ∧ (find_common_free_time ["Bob"; "Carol"] st).2 = Ok ["9:00–18:00"].
Proof. split; vm_compute; reflexivity. Qed.

(** * Participants listed more than once *)

Lemma meet_disjoint x a : a.2 ≤ x.1 ∨ x.2 ≤ a.1 → meet x a = [].
Proof.
  intros H. unfold meet, intersect_step.
  by rewrite bool_decide_eq_false_2 by lia.
Qed.

Lemma meet_contained x a :
  x.1 < x.2 → a.1 ≤ x.1 → x.2 ≤ a.2 → meet x a = [x].
Proof.
  intros H1 H2 H3. unfold meet, intersect_step. destruct x as [s e].
  simpl in *. rewrite bool_decide_eq_true_2 by lia.
  simpl. do 2 f_equal; lia.
Qed.

Lemma bind_meet_disjoint x slots :
  Forall (λ a : slot, a.2 ≤ x.1 ∨ x.2 ≤ a.1) slots → slots ≫= meet x = [].
Proof.
  induction 1 as [|a slots Ha Hs IH]; [done|].
  by rewrite bind_cons, IH, meet_disjoint.
Qed.

(** An interval inside one interval of a FreeList meets that one only. *)
Lemma bind_meet_contained x slots :
  StronglySorted precedes slots → x.1 < x.2 →
  (∃ a, a ∈ slots ∧ a.1 ≤ x.1 ∧ x.2 ≤ a.2) →
  slots ≫= meet x = [x].
Proof.
  induction 1 as [|a0 slots Hs IH Hhd]; intros Hx (a & Ha & H1 & H2).
  - by apply elem_of_nil in Ha.
  - rewrite bind_cons. rewrite Forall_forall in Hhd.
    apply elem_of_cons in Ha as [->|Ha].
    + rewrite meet_contained by done. rewrite bind_meet_disjoint; [done|].
      apply Forall_forall. intros a' Ha'. specialize (Hhd a' Ha').
      unfold precedes in Hhd. lia.
    + specialize (Hhd a Ha). unfold precedes in Hhd.
      rewrite meet_disjoint by lia. apply IH; [done|]. by exists a.
Qed.

Lemma intersect_absorb l slots :
  StronglySorted precedes slots → refines l slots → intersect l slots = l.
Proof.
  intros Hs. rewrite intersect_bind.
  induction 1 as [|x l [Hx Hin] Hl IH]; [done|].
  by rewrite bind_cons, IH, bind_meet_contained.
Qed.

Lemma intersect_refines_l common slots : refines (intersect common slots) common.
Proof.
  apply Forall_forall. intros x Hx.
  apply elem_of_intersect in Hx as (a & b & Ha & Hb & Hx).
  split; [lia|]. exists a. split; [done|lia].
Qed.

Lemma intersect_refines_r common slots : refines (intersect common slots) slots.
Proof.
  apply Forall_forall. intros x Hx.
  apply elem_of_intersect in Hx as (a & b & Ha & Hb & Hx).
  split; [lia|]. exists b. split; [done|lia].
Qed.

Lemma refines_trans l1 l2 l3 : refines l1 l2 → refines l2 l3 → refines l1 l3.
Proof.
  unfold refines. rewrite !Forall_forall. intros H12 H23 x Hx.
  destruct (H12 x Hx) as (Hne & a & Ha & H1 & H2).
  destruct (H23 a Ha) as (_ & b & Hb & H3 & H4).
  split; [done|]. exists b. split; [done|lia].
Qed.

Lemma fold_intersect_refines rest : ∀ common,
  refines (fold_left intersect (rest) common) common
  ∨ fold_left intersect rest common = common.
Proof.
  induction rest as [|slots rest IH]; intros common; simpl; [by right|].
  left. destruct (IH (intersect common slots)) as [H| ->].
  - eapply refines_trans; [exact H|apply intersect_refines_l].
  - apply intersect_refines_l.
Qed.

Lemma fold_intersect_refines_elem slots rest : ∀ common,
  slots ∈ rest → refines (fold_left intersect rest common) slots.
Proof.
  induction rest as [|slots' rest IH]; intros common Hin; simpl.
  - by apply elem_of_nil in Hin.
  - apply elem_of_cons in Hin as [<-|Hin]; [|by apply IH].
    destruct (fold_intersect_refines rest (intersect common slots)) as [H| ->].
    + eapply refines_trans; [exact H|apply intersect_refines_r].
    + apply intersect_refines_r.
Qed.

(** A FreeList that occurs again later in the sequence can be dropped. *)
Lemma fold_intersect_dup slots rest common :
  Forall (StronglySorted precedes) rest → StronglySorted precedes slots →
  StronglySorted precedes common → slots ∈ rest →
  fold_left intersect (slots :: rest) common = fold_left intersect rest common.
Proof.
  intros Hr Hs Hc Hin.
  rewrite (fold_intersect_perm (slots :: rest) (rest ++ [slots]));
    [|by apply Permutation_cons_append|by constructor|done].
  rewrite fold_left_app. simpl. apply intersect_absorb; [done|].
  by apply fold_intersect_refines_elem.
Qed.

Lemma fold_intersect_remove_dups rest : ∀ common,
  Forall (StronglySorted precedes) rest → StronglySorted precedes common →
  fold_left intersect rest common
  = fold_left intersect (remove_dups rest) common.
Proof.
  induction rest as [|slots rest IH]; intros common Hr Hc; [done|].
  apply Forall_cons in Hr as [Hs Hr]. cbn [remove_dups].
  destruct (decide_rel elem_of slots rest) as [Hin|Hnin].
  - rewrite fold_intersect_dup by done. by apply IH.
  - simpl. apply IH; [done|]. by apply intersect_sorted.
Qed.

Lemma intersect_all_remove_dups (l : list (list slot)) :
  Forall (StronglySorted precedes) l →
  Forall (Forall (λ x : slot, x.1 < x.2)) l →
  intersect_all l = intersect_all (remove_dups l).
Proof.
  induction l as [|slots rest IH]; intros Hl Hne; [done|].
  apply Forall_cons in Hl as [Hs Hr]. apply Forall_cons in Hne as [Hn Hne].
  cbn [remove_dups].
  destruct (decide_rel elem_of slots rest) as [Hin|Hnin].
  - rewrite <- IH by done.
    apply elem_of_Permutation in Hin as [rest' Hp].
    rewrite (intersect_all_perm rest (slots :: rest') Hp Hr).
    rewrite (intersect_all_perm (slots :: rest) (slots :: slots :: rest'));
      [|by constructor|by constructor].
    unfold intersect_all. simpl. rewrite !drop_0.
    rewrite intersect_absorb; [done|done|].
    apply Forall_forall. intros x Hx. rewrite Forall_forall in Hn.
    split; [by apply Hn|]. exists x. split; [done|lia].
  - unfold intersect_all. simpl. rewrite !drop_0.
    by rewrite fold_intersect_remove_dups.
Qed.

(** The fold of the intersector depends only on which FreeLists occur in
    the sequence. *)
Lemma intersect_all_set (l l' : list (list slot)) :
  (∀ slots, slots ∈ l ↔ slots ∈ l') →
  Forall (StronglySorted precedes) l →
  Forall (Forall (λ x : slot, x.1 < x.2)) l →
  intersect_all l = intersect_all l'.
Proof.
  intros Heq Hl Hne.
  assert (Hl' : Forall (StronglySorted precedes) l').
  { rewrite Forall_forall in Hl. apply Forall_forall.
    intros x Hx. by apply Hl, Heq. }
  assert (Hne' : Forall (Forall (λ x : slot, x.1 < x.2)) l').
  { rewrite Forall_forall in Hne. apply Forall_forall.
    intros x Hx. by apply Hne, Heq. }
  rewrite (intersect_all_remove_dups l), (intersect_all_remove_dups l')
    by done.
  apply intersect_all_perm.
  - apply NoDup_Permutation; [apply NoDup_remove_dups..|].
    intros x. by rewrite !elem_of_remove_dups.
  - apply Forall_forall. intros x Hx. rewrite elem_of_remove_dups in Hx.
    rewrite Forall_forall in Hl. by apply Hl.
Qed.

Lemma touch_all_set members members' st :
  (∀ member, member ∈ members ↔ member ∈ members') →
  fold_left (λ st member, touch member st) members st
  = fold_left (λ st member, touch member st) members' st.
Proof.
  intros Heq. apply map_eq. intros name. rewrite !lookup_touch_all.
  destruct (decide (name ∈ members)) as [Hin|Hnin].
  - rewrite decide_True; [done|]. by apply Heq.
  - rewrite decide_False; [done|]. by rewrite <- Heq.
Qed.

(** X4. The answer depends only on who is requested, not on the order of
    the members sequence nor on how often a member is listed: when every
    recorded busy interval of the requested members has [start < end], two
    members sequences naming the same persons give the same sequence of
    strings and leave the store in the same state. *)
Theorem find_common_free_time_members_set
    (members members' : list string) (st : store) :
  (∀ member, member ∈ members ↔ member ∈ members') →
  (∀ member, member ∈ members →
     Forall (λ b : slot, b.1 < b.2) (busy_of st member)) →
  find_common_free_time members st = find_common_free_time members' st.
Proof.
  intros Heq Hwf. rewrite !find_common_free_time_spec.
  rewrite (touch_all_set members members' st Heq).
  rewrite (intersect_all_set (free_of st <$> members)
             (free_of st <$> members')); [done|..].
  - intros slots. rewrite !list_elem_of_fmap. split.
    + intros (m & -> & Hm). exists m. split; [done|by apply Heq].
    + intros (m & -> & Hm). exists m. split; [done|by apply Heq].
  - apply Forall_fmap, Forall_forall. intros member Hm.
    by apply free_of_sorted, Hwf.
  - apply Forall_fmap, Forall_forall. intros member Hm.
    apply free_of_nonempty.
Qed.

Lemma find_common_free_time_members_set_witness :
  let st : store :=
    {[ "Alice" := [(14, 16); (10, 11)]; "Bob" := [(9, 10); (13, 15)] ]} in
  find_common_free_time ["Alice"; "Bob"; "Alice"] st
  = find_common_free_time ["Bob"; "Alice"] st.
Proof.
  intros st.
  apply (find_common_free_time_members_set
           ["Alice"; "Bob"; "Alice"] ["Bob"; "Alice"] st).
  - intros member. rewrite !elem_of_cons, !elem_of_nil. tauto.
  - intros member Hm.
    repeat (apply elem_of_cons in Hm as [->|Hm]);
      [replace (busy_of st "Alice") with [(14, 16); (10, 11)]
         by (vm_compute; reflexivity)
      |replace (busy_of st "Bob") with [(9, 10); (13, 15)]
         by (vm_compute; reflexivity)
      |replace (busy_of st "Alice") with [(14, 16); (10, 11)]
         by (vm_compute; reflexivity)
      |by apply elem_of_nil in Hm];
      repeat constructor; simpl; lia.
Defined.

(** With a malformed busy interval a participant listed twice shows in the
    answer. *)
Example duplicate_member_shows_when_malformed :
  let st : store := {[ "Pat" := [(12, 10); (13, 14)] ]} in
  (find_common_free_time ["Pat"] st).2
  = Ok ["9:00–12:00"; "10:00–13:00"; "14:00–18:00"]
  ∧ (find_common_free_time ["Pat"; "Pat"] st).2
    = Ok ["9:00–12:00"; "10:00–12:00"; "10:00–12:00"; "10:00–13:00";
          "14:00–18:00"].
Proof. split; vm_compute; reflexivity. Qed.

(** * The rendering of intervals *)

Lemma pretty_N_char_no_colon x : pretty_N_char x ≠ ":"%char.
Proof. unfold pretty_N_char. by repeat case_match. Qed.

Lemma pretty_N_go_no_colon x : ∀ s, no_colon s → no_colon (pretty_N_go x s).
Proof.
  induction (N.lt_wf_0 x) as [x _ IH]; intros s Hs.
  assert (x = 0 ∨ 0 < x)%N as [->|Hx] by lia.
  - by rewrite pretty_N_go_0.
  - rewrite pretty_N_go_step by done. apply IH.
    + by apply N.div_lt.
    + split; [apply pretty_N_char_no_colon|done].
Qed.

Lemma pretty_N_no_colon (x : N) : no_colon (pretty x).
Proof.
  unfold pretty, pretty_N. case_decide; [by compute|].
  by apply pretty_N_go_no_colon.
Qed.

Lemma pretty_Z_no_colon (x : Z) : no_colon (pretty x).
Proof.
  unfold pretty, pretty_Z. destruct x as [|p|p].
  - by compute.
  - apply pretty_N_no_colon.
  - split; [done|]. apply pretty_N_no_colon.
Qed.

(** Two colon-free strings followed by a colon are told apart by what
    stands before the first colon. *)
Lemma app_colon_inj s1 : ∀ s2 r1 r2,
  no_colon s1 → no_colon s2 →
  s1 +:+ String ":" r1 = s2 +:+ String ":" r2 → s1 = s2 ∧ r1 = r2.
Proof.
  induction s1 as [|c s1 IH]; intros [|d s2] r1 r2 H1 H2 Heq; simpl in *.
  - by injection Heq as ->.
  - injection Heq as <- _. by destruct H2.
  - injection Heq as -> _. by destruct H1.
  - injection Heq as -> Heq. destruct H1 as [_ H1], H2 as [_ H2].
    destruct (IH s2 r1 r2 H1 H2 Heq) as [-> ->]. done.
Qed.

Lemma format_slot_inj x y : format_slot x = format_slot y → x = y.
Proof.
  unfold format_slot. intros Heq.
  apply app_colon_inj in Heq as [H1 Heq]; [|apply pretty_Z_no_colon..].
  injection Heq as Heq.
  apply app_colon_inj in Heq as [H2 _]; [|apply pretty_Z_no_colon..].
  apply (inj pretty) in H1, H2. destruct x, y. simpl in *. by subst.
Qed.

(** X12. The rendering of the answer is unambiguous: two lists of
    intervals that are formatted to the same sequence of strings are the
    same list, so the strings [find_common_free_time] returns determine the
    common intervals. *)
Theorem format_slots_inj (l l' : list slot) :
  format_slot <$> l = format_slot <$> l' → l = l'.
Proof.
  revert l'. induction l as [|x l IH]; intros [|y l'] Heq; try done.
  injection Heq as Hxy Heq. apply format_slot_inj in Hxy as ->.
  f_equal. by apply IH.
Qed.

Lemma format_slots_inj_witness :
  [(11, 13); (16, 18)] = [(11, 13); (16, 18)].
Proof.
  apply (format_slots_inj [(11, 13); (16, 18)] [(11, 13); (16, 18)]).
  reflexivity.
Defined.
